(** * GraphQL subscriptions over one WebSocket: the [transport] package

    A shallow embedding of [transport/websocket.go]: the connection's
    init handshake, its read loop, the per-subscription goroutines and the
    close path, as an executable labelled transition system.  Goroutine
    interleavings and everything the environment decides (inbound frames,
    producer channel receives, timer ticks, context cancellation) are the
    events of the system.  One event is one turn of one goroutine: a
    handler of the read loop from the message read to the next read, one
    iteration of a subscription's select loop, the two halves of its
    deferred function, one tick.  Frames are what the exchanger hands to
    the socket while the socket takes them, that is, until the server has
    written its close frame. *)

From Stdlib Require Import ZArith Ascii String List Lia DecimalString.
From stdpp Require Import base option list gmap strings.

Open Scope string_scope.
Open Scope list_scope.

Module transport.

(** ** Messages *)

(** The semantic message kinds ([messageType]); the names are the ones
    [websocket.go] switches on. *)
Inductive messageType :=
  | initMessageType
  | connectionAckMessageType
  | keepAliveMessageType
  | connectionErrorMessageType
  | connectionCloseMessageType
  | startMessageType
  | stopMessageType
  | dataMessageType
  | completeMessageType
  | errorMessageType
  | pingMessageType
  | pongMessageType.

#[global] Instance messageType_eq_dec : EqDecision messageType.
Proof. solve_decision. Defined.

(** [message]: the fields [websocket.go] reads and writes.  A byte slice
    is a [string] (a list of 8-bit characters). *)
Record message := Message_ {
  payload : string;
  id : string;
  t : messageType;
}.

#[global] Instance message_eq_dec : EqDecision message.
Proof. solve_decision. Defined.

(** ** Errors *)

Module websocket.
(** gorilla/websocket close codes used by the package. *)
Definition CloseNormalClosure : Z := 1000.
Definition CloseProtocolError : Z := 1002.
Definition CloseNoStatusReceived : Z := 1005.
Definition CloseAbnormalClosure : Z := 1006.
End websocket.

(** Go's [error] values that the package tells apart. *)
Inductive error :=
  | errReadTimeout                          (* websocket.go: "read timeout" *)
  | errInvalidMsg
  | errWsConnClosed
  | ErrClosed                               (* net.ErrClosed *)
  | ErrCloseSent                            (* websocket.ErrCloseSent *)
  | CloseError (code : Z) (text : string)   (* *websocket.CloseError *)
  | errorString (msg : string).             (* errors.New / any other error *)

#[global] Instance error_eq_dec : EqDecision error.
Proof. solve_decision. Defined.

(** [websocket.IsCloseError]. *)
Definition IsCloseError (err : error) (codes : list Z) : bool :=
  match err with
  | CloseError code _ => bool_decide (code ∈ codes)
  | _ => false
  end.

(** Modelled from the spec: [handleNextReaderError], the close-error
    normalisation of both message exchangers (only its test,
    [TestHandleNextReaderError], is among the sources): a close error with
    code NormalClosure or NoStatusReceived becomes [errWsConnClosed], any
    other error is returned as it is. *)
Definition handleNextReaderError (err : error) : error :=
  if IsCloseError err [websocket.CloseNormalClosure; websocket.CloseNoStatusReceived]
  then errWsConnClosed
  else err.

(** [WebsocketError]. *)
Record WebsocketError := { Err : error; IsReadError : bool }.

(** [gqlerror.Error]; the package only ever sets and reads the message. *)
Record gqlerror := { Message : string }.

#[global] Instance gqlerror_eq_dec : EqDecision gqlerror.
Proof. solve_decision. Defined.

(** ** Contexts

    A [context.Context] is the chain of its derivations.  Cancel functions
    are handles; which handles were invoked is part of the state.  The
    subscription-error slot is a pointer into a heap of
    [subscriptionError] structs, so that every context derived from the
    installed one sees the same list. *)

(** The heap of [subscriptionError] structs: a slot holds its [errs]. *)
Abbreviation errHeap := (list (list gqlerror)).

Section Contexts.

(** The init payload: [map[string]interface{}], for a type [J] of decoded
    JSON values. *)
Variable J : Type.

Inductive context :=
  | Background
  | WithCancel (parent : context) (h : nat)
  | WithInitPayload (parent : context) (p : gmap string J)
  | WithSubscriptionError (parent : context) (slot : nat)
  | WithCloseReason (parent : context) (reason : string).

(** [<-ctx.Done()] is ready: some cancel on the chain was invoked. *)
Fixpoint ctxDone (cancelled : gset nat) (ctx : context) : bool :=
  match ctx with
  | Background => false
  | WithCancel parent h => bool_decide (h ∈ cancelled) || ctxDone cancelled parent
  | WithInitPayload parent _ => ctxDone cancelled parent
  | WithSubscriptionError parent _ => ctxDone cancelled parent
  | WithCloseReason parent _ => ctxDone cancelled parent
  end.

(** Modelled from the spec: the context carriers [withInitPayload],
    [GetInitPayload] and [closeReasonForContext] (section 6; only their
    tests are among the sources): the value attached nearest on the chain,
    nil or the empty string where there is none. *)
Definition withInitPayload (ctx : context) (p : gmap string J) : context :=
  WithInitPayload ctx p.

Fixpoint GetInitPayload (ctx : context) : option (gmap string J) :=
  match ctx with
  | Background => None
  | WithInitPayload _ p => Some p
  | WithCancel parent _ => GetInitPayload parent
  | WithSubscriptionError parent _ => GetInitPayload parent
  | WithCloseReason parent _ => GetInitPayload parent
  end.

Fixpoint closeReasonForContext (ctx : context) : string :=
  match ctx with
  | Background => ""
  | WithCloseReason _ reason => reason
  | WithCancel parent _ => closeReasonForContext parent
  | WithInitPayload parent _ => closeReasonForContext parent
  | WithSubscriptionError parent _ => closeReasonForContext parent
  end.

(** *** The subscription-error capture channel *)


(** Modelled from the spec: [getSubscriptionErrorStruct],
    [withSubscriptionErrorContext], [AddSubscriptionError] and
    [getSubscriptionError] (section 4.F; only their tests are among the
    sources).  [install_on] attaches a fresh, empty list; [append] adds at
    the end of the list of the nearest installed slot and is a no-op
    where none is installed; [collect] returns the list in insertion
    order, empty where none is installed. *)
Fixpoint getSubscriptionErrorStruct (ctx : context) : option nat :=
  match ctx with
  | Background => None
  | WithSubscriptionError _ slot => Some slot
  | WithCancel parent _ => getSubscriptionErrorStruct parent
  | WithInitPayload parent _ => getSubscriptionErrorStruct parent
  | WithCloseReason parent _ => getSubscriptionErrorStruct parent
  end.

Definition withSubscriptionErrorContext (ctx : context) (heap : errHeap)
  : context * errHeap :=
  (WithSubscriptionError ctx (length heap), heap ++ [[]]).

Definition AddSubscriptionError (ctx : context) (err : gqlerror) (heap : errHeap)
  : errHeap :=
  match getSubscriptionErrorStruct ctx with
  | None => heap
  | Some slot =>
      match heap !! slot with
      | Some errs => <[slot := errs ++ [err]]> heap
      | None => heap
      end
  end.

Definition getSubscriptionError (ctx : context) (heap : errHeap) : list gqlerror :=
  match getSubscriptionErrorStruct ctx with
  | None => []
  | Some slot => default [] (heap !! slot)
  end.

(** Depositing a list of errors one after the other. *)
Definition depositAll (ctx : context) (errs : list gqlerror) (heap : errHeap)
  : errHeap :=
  fold_left (fun h e => AddSubscriptionError ctx e h) errs heap.

End Contexts.

Arguments Background {J}.
Arguments WithCancel {J} parent h.
Arguments WithInitPayload {J} parent p.
Arguments WithSubscriptionError {J} parent slot.
Arguments WithCloseReason {J} parent reason.
Arguments ctxDone {J} cancelled ctx.
Arguments withInitPayload {J} ctx p.
Arguments GetInitPayload {J} ctx.
Arguments closeReasonForContext {J} ctx.
Arguments getSubscriptionErrorStruct {J} ctx.
Arguments withSubscriptionErrorContext {J} ctx heap.
Arguments AddSubscriptionError {J} ctx err heap.
Arguments getSubscriptionError {J} ctx heap.
Arguments depositAll {J} ctx errs heap.


(** ** JSON encoding of a byte slice

    [json.Marshal] of a [[]byte] is the JSON string of its base64 standard
    encoding (encoding/json: "[]byte encodes as a base64-encoded string"). *)

Definition encodeStd : string :=
  "ABCDEFGHIJKLMNOPQRSTUVWXYZabcdefghijklmnopqrstuvwxyz0123456789+/".

Definition b64 (n : N) : ascii :=
  match String.get (N.to_nat n) encodeStd with
  | Some ch => ch
  | None => "="%char
  end.

(** [base64.StdEncoding]: three bytes give four characters, the last group
    is padded with [=]. *)
Fixpoint StdEncoding (src : list ascii) : list ascii :=
  match src with
  | [] => []
  | [a] =>
      let x := N_of_ascii a in
      [b64 (x / 4); b64 (x mod 4 * 16); "="%char; "="%char]
  | [a; b] =>
      let x := N_of_ascii a in
      let y := N_of_ascii b in
      [b64 (x / 4); b64 (x mod 4 * 16 + y / 16); b64 (y mod 16 * 4); "="%char]
  | a :: b :: c :: rest =>
      let x := N_of_ascii a in
      let y := N_of_ascii b in
      let z := N_of_ascii c in
      [b64 (x / 4); b64 (x mod 4 * 16 + y / 16);
       b64 (y mod 16 * 4 + z / 64); b64 (z mod 64)]%N ++ StdEncoding rest
  end%N.

Definition quote : string := String (ascii_of_nat 34) EmptyString.

(** [json.Marshal(response)] for [response []byte] (non-nil). *)
Definition jsonMarshalBytes (response : string) : string :=
  (quote ++ string_of_list_ascii (StdEncoding (list_ascii_of_string response)) ++ quote)%string.

(** ** The connection *)

Record startMessagePayload (J : Type) := {
  OperationName : string;
  Query : string;
  Variables : gmap string J;
}.
Arguments OperationName {J} _.
Arguments Query {J} _.
Arguments Variables {J} _.

(** The values the package formats with [%s]. *)
Inductive fmtArg :=
  | ArgKind (t : messageType)
  | ArgString (s : string).

(** What the package takes from outside: the JSON library, [fmt], the
    [Error] method of the error interface, and the execution service. *)
Record Externals := {
  J : Type;                         (* decoded JSON values, interface{} *)
  P : Type;                         (* the payloads a subscription yields *)
  jsonDecodeInit : string -> option (gmap string J);
  jsonDecodeStart : string -> option (startMessagePayload J);
  jsonMarshal : P -> string + error;            (* json.Marshal(payload) *)
  jsonMarshalErrors : list gqlerror -> string;  (* json.Marshal(errs) *)
  jsonMarshalError : gqlerror -> string;        (* json.Marshal(&gqlerror.Error{..}) *)
  Sprintf : string -> list fmtArg -> string;
  Error : error -> string;
  toGQLError : error -> gqlerror;   (* the package's helper; not in the sources *)
  (* GraphQLService.Subscribe: the channel itself is driven by events *)
  Subscribe : context J -> string -> string -> gmap string J -> option error;
}.

(** The two implementations of the [messageExchanger] interface. *)
Inductive messageExchanger :=
  | graphqlwsMessageExchanger
  | graphqltransportwsMessageExchanger.

#[global] Instance messageExchanger_eq_dec : EqDecision messageExchanger.
Proof. solve_decision. Defined.

(** Modelled from the spec: the subprotocol identifiers (section 6). *)
Definition graphqlwsSubprotocol : string := "graphql-ws".
Definition graphqltransportwsSubprotocol : string := "graphql-transport-ws".

(** Modelled from the spec: the wire token of a message kind in each
    dialect (section 4.A); [None] where the dialect has no such kind
    ([keep_alive] and [connection_terminate] are absent from the modern
    dialect, [ping] and [pong] from the legacy one). *)
Definition wireType (me : messageExchanger) (t : messageType) : option string :=
  match me, t with
  | _, initMessageType => Some "connection_init"
  | _, connectionAckMessageType => Some "connection_ack"
  | _, errorMessageType => Some "error"
  | _, completeMessageType => Some "complete"
  | graphqlwsMessageExchanger, keepAliveMessageType => Some "ka"
  | graphqlwsMessageExchanger, connectionErrorMessageType => Some "connection_error"
  | graphqlwsMessageExchanger, startMessageType => Some "start"
  | graphqlwsMessageExchanger, dataMessageType => Some "data"
  | graphqlwsMessageExchanger, stopMessageType => Some "stop"
  | graphqlwsMessageExchanger, connectionCloseMessageType => Some "connection_terminate"
  | graphqlwsMessageExchanger, pingMessageType => None
  | graphqlwsMessageExchanger, pongMessageType => None
  | graphqltransportwsMessageExchanger, startMessageType => Some "subscribe"
  | graphqltransportwsMessageExchanger, dataMessageType => Some "next"
  | graphqltransportwsMessageExchanger, stopMessageType => Some "complete"
  | graphqltransportwsMessageExchanger, pingMessageType => Some "ping"
  | graphqltransportwsMessageExchanger, pongMessageType => Some "pong"
  | graphqltransportwsMessageExchanger, keepAliveMessageType => None
  | graphqltransportwsMessageExchanger, connectionErrorMessageType => None
  | graphqltransportwsMessageExchanger, connectionCloseMessageType => None
  end.

(** What goes out on the socket: a text frame carrying a message, or a
    close frame. *)
Inductive frame :=
  | Text (m : message)
  | Close (code : Z) (reason : string).

#[global] Instance frame_eq_dec : EqDecision frame.
Proof. solve_decision. Defined.

(** The result of a read, Go's [(message, error)]. *)
Inductive read :=
  | Msg (m : message)
  | Fail (err : error).

(** When the first frame shows up, if ever (delays in nanoseconds). *)
Inductive arrival :=
  | Never
  | After (delay : Z) (r : read).

(** Where a subscription goroutine stands: in its [select] loop, between
    the terminal frame and the unregistration of its deferred function,
    in the drain loop, or gone. *)
Inductive phase := Streaming | Completing | Draining | Exited.

#[global] Instance phase_eq_dec : EqDecision phase.
Proof. solve_decision. Defined.


Section Connection.

Variable X : Externals.

Abbreviation ctxT := (context (J X)).
Abbreviation InitPayload := (gmap string (J X)).

Definition WebsocketInitFunc := ctxT -> option InitPayload -> ctxT + error.

(** [Websocket]: the options.  A [time.Duration] is its count of
    nanoseconds; [ErrorFunc] says whether the hook is set (its calls are
    logged in the connection).  The upgrader belongs to the HTTP layer. *)
Record Websocket := {
  InitFunc : option WebsocketInitFunc;
  InitTimeout : Z;
  ErrorFunc : bool;
  KeepAlivePingInterval : Z;
  PingPongInterval : Z;
}.

(** One subscription goroutine of [subscribe]. *)
Record task := {
  subId : string;            (* msg.id *)
  subCtx : ctxT;             (* ctx, after withSubscriptionErrorContext *)
  svcCtx : ctxT;             (* the ctx that Subscribe was given *)
  subCancel : nat;           (* cancel *)
  chanClosed : bool;         (* payloads was seen closed *)
  subPhase : phase;
}.

(** [wsConnection], with the socket ([sent], [closed], [readDeadline],
    [subprotocol]) and the world around it: the clock, the cancel
    functions invoked so far, the heap of error slots, the goroutines,
    and the calls of [ErrorFunc]. *)
Record wsConnection := {
  config : Websocket;
  ctx : ctxT;
  subprotocol : string;
  me : messageExchanger;
  active : gmap string nat;
  keepAliveTicker : bool;
  pingPongTicker : bool;
  initPayload : option InitPayload;
  sent : list frame;
  closed : bool;
  readDeadline : option Z;
  now : Z;
  cancelled : gset nat;
  envCancels : nat;          (* handles below belong to the environment *)
  nextCancel : nat;
  heap : errHeap;
  goroutines : list task;
  runCtx : ctxT;
  reading : bool;            (* the read loop of run is running *)
  watching : bool;           (* closeOnCancel is waiting *)
  reported : list WebsocketError;
  invoked : list (ctxT * startMessagePayload (J X));  (* calls of Subscribe *)
}.

Definition setCtx (v : ctxT) (c : wsConnection) : wsConnection :=
  {| config := config c; ctx := v; subprotocol := subprotocol c; me := me c;
     active := active c; keepAliveTicker := keepAliveTicker c;
     pingPongTicker := pingPongTicker c; initPayload := initPayload c;
     sent := sent c; closed := closed c; readDeadline := readDeadline c;
     now := now c; cancelled := cancelled c; envCancels := envCancels c;
     nextCancel := nextCancel c; heap := heap c; goroutines := goroutines c;
     runCtx := runCtx c; reading := reading c; watching := watching c;
     reported := reported c; invoked := invoked c |}.

Definition setActive (v : gmap string nat) (c : wsConnection) : wsConnection :=
  {| config := config c; ctx := ctx c; subprotocol := subprotocol c; me := me c;
     active := v; keepAliveTicker := keepAliveTicker c;
     pingPongTicker := pingPongTicker c; initPayload := initPayload c;
     sent := sent c; closed := closed c; readDeadline := readDeadline c;
     now := now c; cancelled := cancelled c; envCancels := envCancels c;
     nextCancel := nextCancel c; heap := heap c; goroutines := goroutines c;
     runCtx := runCtx c; reading := reading c; watching := watching c;
     reported := reported c; invoked := invoked c |}.

Definition setTickers (ka pp : bool) (c : wsConnection) : wsConnection :=
  {| config := config c; ctx := ctx c; subprotocol := subprotocol c; me := me c;
     active := active c; keepAliveTicker := ka;
     pingPongTicker := pp; initPayload := initPayload c;
     sent := sent c; closed := closed c; readDeadline := readDeadline c;
     now := now c; cancelled := cancelled c; envCancels := envCancels c;
     nextCancel := nextCancel c; heap := heap c; goroutines := goroutines c;
     runCtx := runCtx c; reading := reading c; watching := watching c;
     reported := reported c; invoked := invoked c |}.

Definition setInitPayload (v : option InitPayload) (c : wsConnection) : wsConnection :=
  {| config := config c; ctx := ctx c; subprotocol := subprotocol c; me := me c;
     active := active c; keepAliveTicker := keepAliveTicker c;
     pingPongTicker := pingPongTicker c; initPayload := v;
     sent := sent c; closed := closed c; readDeadline := readDeadline c;
     now := now c; cancelled := cancelled c; envCancels := envCancels c;
     nextCancel := nextCancel c; heap := heap c; goroutines := goroutines c;
     runCtx := runCtx c; reading := reading c; watching := watching c;
     reported := reported c; invoked := invoked c |}.

(** The socket's write side: the frames so far and whether a close
    frame went out (gorilla fails every later write with
    [ErrCloseSent]). *)
Definition setSocket (fs : list frame) (cl : bool) (c : wsConnection) : wsConnection :=
  {| config := config c; ctx := ctx c; subprotocol := subprotocol c; me := me c;
     active := active c; keepAliveTicker := keepAliveTicker c;
     pingPongTicker := pingPongTicker c; initPayload := initPayload c;
     sent := fs; closed := cl; readDeadline := readDeadline c;
     now := now c; cancelled := cancelled c; envCancels := envCancels c;
     nextCancel := nextCancel c; heap := heap c; goroutines := goroutines c;
     runCtx := runCtx c; reading := reading c; watching := watching c;
     reported := reported c; invoked := invoked c |}.

Definition SetReadDeadline (v : Z) (c : wsConnection) : wsConnection :=
  {| config := config c; ctx := ctx c; subprotocol := subprotocol c; me := me c;
     active := active c; keepAliveTicker := keepAliveTicker c;
     pingPongTicker := pingPongTicker c; initPayload := initPayload c;
     sent := sent c; closed := closed c; readDeadline := Some v;
     now := now c; cancelled := cancelled c; envCancels := envCancels c;
     nextCancel := nextCancel c; heap := heap c; goroutines := goroutines c;
     runCtx := runCtx c; reading := reading c; watching := watching c;
     reported := reported c; invoked := invoked c |}.

Definition setNow (v : Z) (c : wsConnection) : wsConnection :=
  {| config := config c; ctx := ctx c; subprotocol := subprotocol c; me := me c;
     active := active c; keepAliveTicker := keepAliveTicker c;
     pingPongTicker := pingPongTicker c; initPayload := initPayload c;
     sent := sent c; closed := closed c; readDeadline := readDeadline c;
     now := v; cancelled := cancelled c; envCancels := envCancels c;
     nextCancel := nextCancel c; heap := heap c; goroutines := goroutines c;
     runCtx := runCtx c; reading := reading c; watching := watching c;
     reported := reported c; invoked := invoked c |}.

Definition setCancelled (v : gset nat) (c : wsConnection) : wsConnection :=
  {| config := config c; ctx := ctx c; subprotocol := subprotocol c; me := me c;
     active := active c; keepAliveTicker := keepAliveTicker c;
     pingPongTicker := pingPongTicker c; initPayload := initPayload c;
     sent := sent c; closed := closed c; readDeadline := readDeadline c;
     now := now c; cancelled := v; envCancels := envCancels c;
     nextCancel := nextCancel c; heap := heap c; goroutines := goroutines c;
     runCtx := runCtx c; reading := reading c; watching := watching c;
     reported := reported c; invoked := invoked c |}.

Definition setNextCancel (v : nat) (c : wsConnection) : wsConnection :=
  {| config := config c; ctx := ctx c; subprotocol := subprotocol c; me := me c;
     active := active c; keepAliveTicker := keepAliveTicker c;
     pingPongTicker := pingPongTicker c; initPayload := initPayload c;
     sent := sent c; closed := closed c; readDeadline := readDeadline c;
     now := now c; cancelled := cancelled c; envCancels := envCancels c;
     nextCancel := v; heap := heap c; goroutines := goroutines c;
     runCtx := runCtx c; reading := reading c; watching := watching c;
     reported := reported c; invoked := invoked c |}.

Definition setHeap (v : errHeap) (c : wsConnection) : wsConnection :=
  {| config := config c; ctx := ctx c; subprotocol := subprotocol c; me := me c;
     active := active c; keepAliveTicker := keepAliveTicker c;
     pingPongTicker := pingPongTicker c; initPayload := initPayload c;
     sent := sent c; closed := closed c; readDeadline := readDeadline c;
     now := now c; cancelled := cancelled c; envCancels := envCancels c;
     nextCancel := nextCancel c; heap := v; goroutines := goroutines c;
     runCtx := runCtx c; reading := reading c; watching := watching c;
     reported := reported c; invoked := invoked c |}.

Definition setGoroutines (v : list task) (c : wsConnection) : wsConnection :=
  {| config := config c; ctx := ctx c; subprotocol := subprotocol c; me := me c;
     active := active c; keepAliveTicker := keepAliveTicker c;
     pingPongTicker := pingPongTicker c; initPayload := initPayload c;
     sent := sent c; closed := closed c; readDeadline := readDeadline c;
     now := now c; cancelled := cancelled c; envCancels := envCancels c;
     nextCancel := nextCancel c; heap := heap c; goroutines := v;
     runCtx := runCtx c; reading := reading c; watching := watching c;
     reported := reported c; invoked := invoked c |}.

Definition setRun (rc : ctxT) (rd wt : bool) (c : wsConnection) : wsConnection :=
  {| config := config c; ctx := ctx c; subprotocol := subprotocol c; me := me c;
     active := active c; keepAliveTicker := keepAliveTicker c;
     pingPongTicker := pingPongTicker c; initPayload := initPayload c;
     sent := sent c; closed := closed c; readDeadline := readDeadline c;
     now := now c; cancelled := cancelled c; envCancels := envCancels c;
     nextCancel := nextCancel c; heap := heap c; goroutines := goroutines c;
     runCtx := rc; reading := rd; watching := wt;
     reported := reported c; invoked := invoked c |}.

Definition setReported (v : list WebsocketError) (c : wsConnection) : wsConnection :=
  {| config := config c; ctx := ctx c; subprotocol := subprotocol c; me := me c;
     active := active c; keepAliveTicker := keepAliveTicker c;
     pingPongTicker := pingPongTicker c; initPayload := initPayload c;
     sent := sent c; closed := closed c; readDeadline := readDeadline c;
     now := now c; cancelled := cancelled c; envCancels := envCancels c;
     nextCancel := nextCancel c; heap := heap c; goroutines := goroutines c;
     runCtx := runCtx c; reading := reading c; watching := watching c;
     reported := v; invoked := invoked c |}.

Definition setInvoked (v : list (ctxT * startMessagePayload (J X)))
    (c : wsConnection) : wsConnection :=
  {| config := config c; ctx := ctx c; subprotocol := subprotocol c; me := me c;
     active := active c; keepAliveTicker := keepAliveTicker c;
     pingPongTicker := pingPongTicker c; initPayload := initPayload c;
     sent := sent c; closed := closed c; readDeadline := readDeadline c;
     now := now c; cancelled := cancelled c; envCancels := envCancels c;
     nextCancel := nextCancel c; heap := heap c; goroutines := goroutines c;
     runCtx := runCtx c; reading := reading c; watching := watching c;
     reported := reported c; invoked := v |}.

Definition setPhase (ph : phase) (cl : bool) (g : task) : task :=
  {| subId := subId g; subCtx := subCtx g; svcCtx := svcCtx g;
     subCancel := subCancel g; chanClosed := cl; subPhase := ph |}.

(** *** Writing *)

Definition handlePossibleError (err : option error) (isReadError : bool)
    (c : wsConnection) : wsConnection :=
  match err with
  | Some e =>
      if ErrorFunc (config c)
      then setReported (reported c ++ [{| Err := e; IsReadError := isReadError |}]) c
      else c
  | None => c
  end.

(** Modelled from the spec: the exchangers' [Send] (sections 3 and 4.A):
    a kind the dialect has no wire form for is not written; any other
    message goes out as one text frame, unless the socket has sent its
    close frame, in which case the write fails. *)
Definition Send (msg : message) (c : wsConnection) : wsConnection * option error :=
  match wireType (me c) (t msg) with
  | None => (c, None)
  | Some _ =>
      if closed c then (c, Some ErrCloseSent)
      else (setSocket (sent c ++ [Text msg]) false c, None)
  end.

Definition write (msg : message) (c : wsConnection) : wsConnection :=
  let '(c', err) := Send msg c in
  handlePossibleError err false c'.

Definition sendResponse (i : string) (response : string) (c : wsConnection)
  : wsConnection :=
  write {| payload := jsonMarshalBytes response; id := i; t := dataMessageType |} c.

Definition complete (i : string) (c : wsConnection) : wsConnection :=
  write {| payload := ""; id := i; t := completeMessageType |} c.

Definition sendError (i : string) (errors : list gqlerror) (c : wsConnection)
  : wsConnection :=
  write {| payload := jsonMarshalErrors X errors; id := i; t := errorMessageType |} c.

Definition sendConnectionError (format : string) (args : list fmtArg)
    (c : wsConnection) : wsConnection :=
  write {| payload := jsonMarshalError X {| Message := Sprintf X format args |};
           id := ""; t := connectionErrorMessageType |} c.

(** A cancel function is invoked. *)
Definition cancel (h : nat) (c : wsConnection) : wsConnection :=
  setCancelled ({[h]} ∪ cancelled c) c.

(** [close]: the close frame (its write error is dropped), every cancel
    of the registry, then the socket. *)
Definition close (closeCode : Z) (message : string) (c : wsConnection)
  : wsConnection :=
  let c1 := if closed c then c
            else setSocket (sent c ++ [Close closeCode message]) true c in
  setCancelled (map_img (active c1) ∪ cancelled c1) c1.

(** *** The init handshake *)

(** [me.NextMessage()]: blocks until the frame is there ([None]: for
    ever). *)
Definition NextMessage (a : arrival) : option read :=
  match a with
  | Never => None
  | After _ r => Some r
  end.

(** [nextMessageWithTimeout]: the reader goroutine races [time.After];
    [tie] is the choice of [select] when both channels are ready. *)
Definition nextMessageWithTimeout (timeout : Z) (a : arrival) (tie : bool) : read :=
  match a with
  | Never => Fail errReadTimeout
  | After delay r =>
      if (Z.max 0 delay <? Z.max 0 timeout)%Z then r
      else if (Z.max 0 timeout <? Z.max 0 delay)%Z then Fail errReadTimeout
      else if tie then r else Fail errReadTimeout
  end.

(** [init]; [None] when the first read never returns. *)
Definition init (a : arrival) (tie : bool) (c : wsConnection)
  : option (bool * wsConnection) :=
  r ← (if decide (InitTimeout (config c) ≠ 0%Z)
       then Some (nextMessageWithTimeout (InitTimeout (config c)) a tie)
       else NextMessage a);
  Some
    match r with
    | Fail err =>
        if decide (err = errReadTimeout)
        then (false, close websocket.CloseProtocolError
                       "connection initialisation timeout" c)
        else
          let c1 := if decide (err = errInvalidMsg)
                    then sendConnectionError "invalid json" [] c else c in
          (false, close websocket.CloseProtocolError "decoding error" c1)
    | Msg m =>
        match t m with
        | initMessageType =>
            let decoded :=
              if (0 <? String.length (payload m))%nat
              then match jsonDecodeInit X (payload m) with
                   | Some p => inl (setInitPayload (Some p) c)
                   | None => inr (setInitPayload (Some ∅) c)
                   end
              else inl c in
            match decoded with
            | inr c1 => (false, c1)
            | inl c1 =>
                let hooked :=
                  match InitFunc (config c1) with
                  | Some f =>
                      match f (ctx c1) (initPayload c1) with
                      | inr err => inr err
                      | inl ctx' => inl (setCtx ctx' c1)
                      end
                  | None => inl c1
                  end in
                match hooked with
                | inr err =>
                    (false, close websocket.CloseNormalClosure "terminated"
                              (sendConnectionError (Error X err) [] c1))
                | inl c2 =>
                    (true, write {| payload := ""; id := ""; t := keepAliveMessageType |}
                             (write {| payload := ""; id := "";
                                       t := connectionAckMessageType |} c2))
                end
            end
        | connectionCloseMessageType =>
            (false, close websocket.CloseNormalClosure "terminated" c)
        | _ =>
            (false, close websocket.CloseProtocolError "unexpected message"
                      (sendConnectionError "unexpected message %s" [ArgKind (t m)] c))
        end
    end.

(** *** Subscriptions *)

(** [subscribe], up to and including the [go] statement; the goroutine
    installs its error slot first thing. *)
Definition subscribe (ctx0 : ctxT) (msg : message) (c : wsConnection)
  : wsConnection :=
  match jsonDecodeStart X (payload msg) with
  | None =>
      complete (id msg) (sendError (id msg) [{| Message := "invalid json" |}] c)
  | Some params =>
      let h := nextCancel c in
      let ctx1 := WithCancel ctx0 h in
      let c := setInvoked (invoked c ++ [(ctx1, params)]) (setNextCancel (S h) c) in
      match Subscribe X ctx1 (Query params) (OperationName params) (Variables params) with
      | Some err =>
          cancel h (complete (id msg) (sendError (id msg) [toGQLError X err] c))
      | None =>
          let ctx2 := match initPayload c with
                      | Some p => withInitPayload ctx1 p
                      | None => ctx1
                      end in
          let c := setActive (<[id msg := h]> (active c)) c in
          let '(ctx3, heap') := withSubscriptionErrorContext ctx2 (heap c) in
          setGoroutines
            (goroutines c ++
               [{| subId := id msg; subCtx := ctx3; svcCtx := ctx1;
                   subCancel := h; chanClosed := false; subPhase := Streaming |}])
            (setHeap heap' c)
      end
  end.

(** The body of the goroutine's loop for a received payload. *)
Definition deliver (g : task) (payload : P X) (c : wsConnection) : wsConnection :=
  match jsonMarshal X payload with
  | inr err => sendError (subId g) [toGQLError X err] c
  | inl jsonPayload => sendResponse (subId g) jsonPayload c
  end.

(** The deferred function, first half: the terminal frame. *)
Definition finish (g : task) (c : wsConnection) : wsConnection :=
  match getSubscriptionError (subCtx g) (heap c) with
  | [] => complete (subId g) c
  | errs => sendError (subId g) errs c
  end.

(** The deferred function, second half: [delete(c.active, msg.id)] and
    [cancel()]; the drain loop follows. *)
Definition unregister (g : task) (c : wsConnection) : wsConnection :=
  cancel (subCancel g) (setActive (delete (subId g) (active c)) c).

(** *** The read loop *)

(** An [int64]: the value of a Go expression on durations wraps. *)
Definition wrap64 (z : Z) : Z := ((z + 2 ^ 63) mod 2 ^ 64 - 2 ^ 63)%Z.

(** [time.Now().UTC().Add(2 * c.PingPongInterval)]. *)
Definition pongDeadline (c : wsConnection) : Z :=
  (now c + wrap64 (2 * PingPongInterval (config c)))%Z.

(** [run] before its loop: the context of the timers, the tickers of the
    dialect, the close-on-cancel watcher.  [None]: [time.NewTicker]
    panics on an interval that is not positive. *)
Definition runStart (c : wsConnection) : option wsConnection :=
  let h := nextCancel c in
  let c := setRun (WithCancel (ctx c) h) true true (setNextCancel (S h) c) in
  c ← (if (bool_decide (subprotocol c = "") || bool_decide (subprotocol c = graphqlwsSubprotocol))
          && bool_decide (KeepAlivePingInterval (config c) ≠ 0%Z)
       then if (0 <? KeepAlivePingInterval (config c))%Z
            then Some (setTickers true (pingPongTicker c) c) else None
       else Some c);
  if bool_decide (subprotocol c = graphqltransportwsSubprotocol)
     && bool_decide (PingPongInterval (config c) ≠ 0%Z)
  then if (0 <? PingPongInterval (config c))%Z
       then Some (SetReadDeadline (pongDeadline c) (setTickers (keepAliveTicker c) true c))
       else None
  else Some c.

(** [run]'s deferred function: [cancel()], then [close]; the loop is
    left. *)
Definition runExit (c : wsConnection) : wsConnection :=
  let stop :=
    match runCtx c with
    | WithCancel _ h => cancel h
    | _ => fun c => c
    end in
  setRun (runCtx c) false (watching c)
    (close websocket.CloseAbnormalClosure "unexpected closure" (stop c)).

(** One turn of the loop for a message that was read. *)
Definition dispatch (m : message) (c : wsConnection) : wsConnection :=
  match t m with
  | startMessageType => subscribe (ctx c) m c
  | stopMessageType =>
      match active c !! id m with
      | Some closer => cancel closer c
      | None => c
      end
  | connectionCloseMessageType =>
      runExit (close websocket.CloseNormalClosure "terminated" c)
  | pingMessageType =>
      write {| payload := payload m; id := ""; t := pongMessageType |} c
  | pongMessageType => SetReadDeadline (pongDeadline c) c
  | _ =>
      runExit (close websocket.CloseProtocolError "unexpected message"
                 (sendConnectionError "unexpected message %s" [ArgKind (t m)] c))
  end.

(** One turn of the loop for a failed read. *)
Definition readFailed (err : error) (c : wsConnection) : wsConnection :=
  runExit (if decide (err = ErrClosed) then c
           else handlePossibleError (Some err) true c).

(** [closeOnCancel], once its context is done. *)
Definition closeOnCancel (c : wsConnection) : wsConnection :=
  let r := closeReasonForContext (runCtx c) in
  let c1 := if decide (r = "") then c else sendConnectionError r [] c in
  setRun (runCtx c) (reading c) false
    (close websocket.CloseNormalClosure "terminated" c1).

(** *** Events

    What the scheduler and the environment decide.  A handler runs to
    its end within one event. *)
Inductive event :=
  | Inbound (m : message)               (* the loop's NextMessage returns m *)
  | InboundFail (err : error)           (* ... or fails *)
  | KeepAliveTick                       (* keepAlive: the ticker fires *)
  | KeepAliveStop                       (* keepAlive: ctx.Done() *)
  | PingTick                            (* ping: the ticker fires *)
  | PingStop                            (* ping: ctx.Done() *)
  | Elapse (d : Z)                      (* time passes *)
  | EnvCancel (h : nat)                 (* the owner of c.ctx cancels *)
  | CloseOnCancel                       (* closeOnCancel wakes up *)
  | Receive (n : nat) (x : option (P X))
      (* goroutine n receives from payloads; None: the channel is closed *)
  | Cancelled (n : nat)                 (* goroutine n takes <-ctx.Done() *)
  | Unregister (n : nat)                (* goroutine n: delete and cancel *)
  | Deposit (n : nat) (err : gqlerror).
      (* the service calls AddSubscriptionError on the context it got *)

Definition setTask (n : nat) (g : task) (c : wsConnection) : wsConnection :=
  setGoroutines (<[n := g]> (goroutines c)) c.

Definition receive (n : nat) (g : task) (x : option (P X)) (c : wsConnection)
  : option wsConnection :=
  match subPhase g, x with
  | Streaming, Some payload =>
      if chanClosed g then None else Some (deliver g payload c)
  | Streaming, None => Some (setTask n (setPhase Completing true g) (finish g c))
  | Draining, Some _ => if chanClosed g then None else Some c
  | Draining, None => Some (setTask n (setPhase Exited true g) c)
  | _, _ => None
  end.

Definition step (c : wsConnection) (e : event) : option wsConnection :=
  match e with
  | Inbound m =>
      if reading c && negb (closed c) then Some (dispatch m c) else None
  | InboundFail err =>
      if reading c then Some (readFailed err c) else None
  | KeepAliveTick =>
      if keepAliveTicker c
      then Some (write {| payload := ""; id := ""; t := keepAliveMessageType |} c)
      else None
  | KeepAliveStop =>
      if keepAliveTicker c && ctxDone (cancelled c) (runCtx c)
      then Some (setTickers false (pingPongTicker c) c) else None
  | PingTick =>
      if pingPongTicker c
      then Some (write {| payload := ""; id := ""; t := pingMessageType |} c)
      else None
  | PingStop =>
      if pingPongTicker c && ctxDone (cancelled c) (runCtx c)
      then Some (setTickers (keepAliveTicker c) false c) else None
  | Elapse d =>
      if (0 <=? d)%Z then Some (setNow (now c + d)%Z c) else None
  | EnvCancel h =>
      if (h <? envCancels c)%nat then Some (cancel h c) else None
  | CloseOnCancel =>
      if watching c && ctxDone (cancelled c) (runCtx c)
      then Some (closeOnCancel c) else None
  | Receive n x =>
      g ← goroutines c !! n; receive n g x c
  | Cancelled n =>
      g ← goroutines c !! n;
      if bool_decide (subPhase g = Streaming) && ctxDone (cancelled c) (subCtx g)
      then Some (setTask n (setPhase Completing (chanClosed g) g) (finish g c))
      else None
  | Unregister n =>
      g ← goroutines c !! n;
      if bool_decide (subPhase g = Completing)
      then Some (setTask n (setPhase Draining (chanClosed g) g) (unregister g c))
      else None
  | Deposit n err =>
      g ← goroutines c !! n;
      Some (setHeap (AddSubscriptionError (svcCtx g) err (heap c)) c)
  end.

(** A schedule, event after event; [None] if one of them is not enabled. *)
Fixpoint exec (c : wsConnection) (es : list event) : option wsConnection :=
  match es with
  | [] => Some c
  | e :: es' => c' ← step c e; exec c' es'
  end.

(** *** [Do] *)

(** The connection as [Do] builds it. *)
Definition newConnection (cfg : Websocket) (proto : string) (ex : messageExchanger)
    (ctx0 : ctxT) (envH : nat) (clock : Z) : wsConnection :=
  {| config := cfg; ctx := ctx0; subprotocol := proto; me := ex;
     active := ∅; keepAliveTicker := false; pingPongTicker := false;
     initPayload := None; sent := []; closed := false; readDeadline := None;
     now := clock; cancelled := ∅; envCancels := envH; nextCancel := envH;
     heap := []; goroutines := []; runCtx := ctx0; reading := false;
     watching := false; reported := []; invoked := [] |}.

(** How far [Do] gets. *)
Inductive served :=
  | Unsupported (closing : frame)   (* no exchanger for the subprotocol *)
  | Waiting                         (* init never returns *)
  | Refused (c : wsConnection)      (* init returned false *)
  | Panicked                        (* run panicked before its loop *)
  | Serving (c : wsConnection).     (* the loop of run is entered *)

(** [Do], after the upgrade: the exchanger of the negotiated
    subprotocol, [init], and [run] up to its loop. *)
Definition Do (cfg : Websocket) (proto : string) (ctx0 : ctxT) (envH : nat)
    (clock : Z) (a : arrival) (tie : bool) : served :=
  let ex :=
    if bool_decide (proto = graphqlwsSubprotocol) || bool_decide (proto = "")
    then Some graphqlwsMessageExchanger
    else if bool_decide (proto = graphqltransportwsSubprotocol)
    then Some graphqltransportwsMessageExchanger
    else None in
  match ex with
  | None =>
      Unsupported
        (Close websocket.CloseProtocolError
           (Sprintf X "unsupported negotiated subprotocol %s" [ArgString proto]))
  | Some ex =>
      match init a tie (newConnection cfg proto ex ctx0 envH clock) with
      | None => Waiting
      | Some (false, c) => Refused c
      | Some (true, c) =>
          match runStart c with
          | None => Panicked
          | Some c' => Serving c'
          end
      end
  end.

End Connection.

Arguments InitFunc {X} _.
Arguments InitTimeout {X} _.
Arguments ErrorFunc {X} _.
Arguments KeepAlivePingInterval {X} _.
Arguments PingPongInterval {X} _.
Arguments subId {X} _.
Arguments subCtx {X} _.
Arguments svcCtx {X} _.
Arguments subCancel {X} _.
Arguments chanClosed {X} _.
Arguments subPhase {X} _.
Arguments config {X} _.
Arguments ctx {X} _.
Arguments subprotocol {X} _.
Arguments me {X} _.
Arguments active {X} _.
Arguments keepAliveTicker {X} _.
Arguments pingPongTicker {X} _.
Arguments initPayload {X} _.
Arguments sent {X} _.
Arguments closed {X} _.
Arguments readDeadline {X} _.
Arguments now {X} _.
Arguments cancelled {X} _.
Arguments envCancels {X} _.
Arguments nextCancel {X} _.
Arguments heap {X} _.
Arguments goroutines {X} _.
Arguments runCtx {X} _.
Arguments reading {X} _.
Arguments watching {X} _.
Arguments reported {X} _.
Arguments invoked {X} _.
Arguments Inbound {X} m.
Arguments InboundFail {X} err.
Arguments KeepAliveTick {X}.
Arguments KeepAliveStop {X}.
Arguments PingTick {X}.
Arguments PingStop {X}.
Arguments Elapse {X} d.
Arguments EnvCancel {X} h.
Arguments CloseOnCancel {X}.
Arguments Receive {X} n x.
Arguments Cancelled {X} n.
Arguments Unregister {X} n.
Arguments Deposit {X} n err.
Arguments Unsupported {X} closing.
Arguments Waiting {X}.
Arguments Refused {X} c.
Arguments Panicked {X}.
Arguments Serving {X} c.


(** ** A concrete environment

    Stand-ins for [encoding/json], [fmt] and the execution service, used
    to run the connection on concrete schedules: payloads are integers
    (or a value [json.Marshal] rejects), a start payload is the object
    with the single key [query], error messages are plain text. *)
Module Demo.

Inductive value :=
  | Int (z : Z)
  | Chan.          (* json: unsupported type *)

Definition stripPrefix (p s : string) : option string :=
  if String.prefix p s
  then Some (String.substring (String.length p) (String.length s - String.length p) s)
  else None.

Definition stripSuffix (p s : string) : option string :=
  let n := (String.length s - String.length p)%nat in
  if bool_decide (String.substring n (String.length p) s = p)
     && (String.length p <=? String.length s)%nat
  then Some (String.substring 0 n s)
  else None.

(** [{"query":"..."}] *)
Definition decodeStart (s : string) : option (startMessagePayload string) :=
  body ← stripPrefix ("{" ++ quote ++ "query" ++ quote ++ ":" ++ quote)%string s;
  q ← stripSuffix (quote ++ "}")%string body;
  Some {| OperationName := ""; Query := q; Variables := ∅ |}.

(** Only the empty object. *)
Definition decodeInit (s : string) : option (gmap string string) :=
  if bool_decide (s = "{}") then Some ∅ else None.

Definition marshal (v : value) : string + error :=
  match v with
  | Int z => inl (NilEmpty.string_of_int (Z.to_int z))
  | Chan => inr (errorString "json: unsupported type: chan int")
  end.

Definition marshalError (e : gqlerror) : string :=
  ("{" ++ quote ++ "message" ++ quote ++ ":" ++ quote ++ Message e ++ quote ++ "}")%string.

Definition marshalErrors (errs : list gqlerror) : string :=
  ("[" ++ String.concat "," (map marshalError errs) ++ "]")%string.

Definition kindName (t : messageType) : string :=
  match t with
  | initMessageType => "init"
  | connectionAckMessageType => "connection_ack"
  | keepAliveMessageType => "keep_alive"
  | connectionErrorMessageType => "connection_error"
  | connectionCloseMessageType => "connection_close"
  | startMessageType => "start"
  | stopMessageType => "stop"
  | dataMessageType => "data"
  | completeMessageType => "complete"
  | errorMessageType => "error"
  | pingMessageType => "ping"
  | pongMessageType => "pong"
  end.

(** A format with at most one trailing [%s]. *)
Definition sprintf (format : string) (args : list fmtArg) : string :=
  match stripSuffix "%s" format, args with
  | Some f, ArgKind t :: _ => (f ++ kindName t)%string
  | Some f, ArgString s :: _ => (f ++ s)%string
  | _, _ => format
  end.

Definition errorText (e : error) : string :=
  match e with
  | errReadTimeout => "read timeout"
  | errInvalidMsg => "invalid message received"
  | errWsConnClosed => "websocket connection closed"
  | ErrClosed => "use of closed network connection"
  | ErrCloseSent => "websocket: close sent"
  | CloseError _ text => text
  | errorString msg => msg
  end.

(** The service rejects the query [fail] and accepts any other. *)
Definition service (_ : context string) (query _ : string) (_ : gmap string string)
  : option error :=
  if bool_decide (query = "fail") then Some (errorString "no such subscription")
  else None.

Definition X : Externals :=
  {| J := string; P := value;
     jsonDecodeInit := decodeInit; jsonDecodeStart := decodeStart;
     jsonMarshal := marshal; jsonMarshalErrors := marshalErrors;
     jsonMarshalError := marshalError; Sprintf := sprintf;
     Error := errorText; toGQLError := fun e => {| Message := errorText e |};
     Subscribe := service |}.

Definition options : Websocket X :=
  {| InitFunc := None; InitTimeout := 0; ErrorFunc := true;
     KeepAlivePingInterval := 0; PingPongInterval := 0 |}.

Definition initMsg : message :=
  {| payload := ""; id := ""; t := initMessageType |}.

Definition tick : string :=
  ("{" ++ quote ++ "query" ++ quote ++ ":" ++ quote ++ "subscription{tick}" ++ quote ++ "}")%string.

Definition startMsg (i payload : string) : message :=
  {| payload := payload; id := i; t := startMessageType |}.

Definition stopMsg (i : string) : message :=
  {| payload := ""; id := i; t := stopMessageType |}.

(** A connection of the given subprotocol whose handshake succeeded at
    once, and the same after a schedule. *)
Definition ready (proto : string) : option (wsConnection X) :=
  match Do X options proto Background 0 0 (After 0 (Msg initMsg)) false with
  | Serving c => Some c
  | _ => None
  end.

Definition recv (n : nat) (x : option value) : event X := @Receive X n x.

Definition after (proto : string) (es : list (event X)) : option (wsConnection X) :=
  c ← ready proto; exec X c es.

(** The legacy connection when [init] has returned true. *)
Definition greeted : wsConnection X :=
  let fresh := newConnection X options graphqlwsSubprotocol
                 graphqlwsMessageExchanger Background 0 0 in
  default fresh (snd <$> init X (After 0 (Msg initMsg)) false fresh).

(** The legacy connection when the loop of [run] is entered. *)
Definition legacy : wsConnection X :=
  default (newConnection X options "" graphqlwsMessageExchanger Background 0 0)
    (ready graphqlwsSubprotocol).

Definition run (es : list (event X)) : wsConnection X :=
  default legacy (exec X legacy es).

Definition quoted (s : string) : string := (quote ++ s ++ quote)%string.

Definition dataFrame (i payload : string) : frame :=
  Text {| payload := payload; id := i; t := dataMessageType |}.


Definition completeFrame (i : string) : frame :=
  Text {| payload := ""; id := i; t := completeMessageType |}.

(** Scenario 2 of the spec: one subscription, three payloads, the
    channel is closed, the goroutine unregisters and leaves. *)
Definition lifecycle : list (event X) :=
  [Inbound (startMsg "1" tick);
   recv 0 (Some (Int 1)); recv 0 (Some (Int 2)); recv 0 (Some (Int 3));
   recv 0 None; Unregister 0; recv 0 None].

(** Scenario 3 of the spec: the client stops the subscription after the
    first data frame; a payload still in the channel is drained. *)
Definition stopped : list (event X) :=
  [Inbound (startMsg "1" tick); recv 0 (Some (Int 1));
   Inbound (stopMsg "1"); Cancelled 0; Unregister 0;
   recv 0 (Some (Int 2)); recv 0 None].

(** A start that reuses the id of a live subscription; the first
    goroutine then ends. *)
Definition reuse : list (event X) :=
  [Inbound (startMsg "1" tick); Inbound (startMsg "1" tick);
   recv 0 None; Unregister 0].


(** A subscription cut short by connection_terminate. *)
Definition terminated : list (event X) :=
  [Inbound (startMsg "1" tick);
   Inbound {| payload := ""; id := ""; t := connectionCloseMessageType |};
   Cancelled 0; Unregister 0; recv 0 None].


(** The goroutine of the first start. *)
Definition worker : task X :=
  {| subId := "1"; subCtx := WithSubscriptionError (WithCancel Background 1) 0;
     svcCtx := WithCancel Background 1; subCancel := 1;
     chanClosed := false; subPhase := Streaming |}.

Definition pongMsg : message :=
  {| payload := ""; id := ""; t := pongMessageType |}.

(** InitTimeout = 50ms. *)
Definition impatient : Websocket X :=
  {| InitFunc := None; InitTimeout := 50000000; ErrorFunc := true;
     KeepAlivePingInterval := 0; PingPongInterval := 0 |}.

End Demo.


(** ** Observations on the outbound frames *)

(** The two frames of a successful [init]. *)
Definition ackFrame : frame :=
  Text {| payload := ""; id := ""; t := connectionAckMessageType |}.
Definition keepAliveFrame : frame :=
  Text {| payload := ""; id := ""; t := keepAliveMessageType |}.

Section Observations.

Context {X : Externals}.

(** The frames a call of [write] puts on the socket. *)
Definition wrote (msg : message) (c : wsConnection X) : list frame :=
  match wireType (me c) (t msg) with
  | Some _ => if closed c then [] else [Text msg]
  | None => []
  end.

Definition kindOf (f : frame) : option messageType :=
  match f with
  | Text m => Some (t m)
  | Close _ _ => None
  end.

(** The frame the deferred function of goroutine [g] writes. *)
Definition terminalFrame (g : task X) (c : wsConnection X) : frame :=
  match getSubscriptionError (subCtx g) (heap c) with
  | [] => Text {| payload := ""; id := subId g; t := completeMessageType |}
  | errs => Text {| payload := jsonMarshalErrors X errs; id := subId g;
                    t := errorMessageType |}
  end.

Definition phaseOf (n : nat) (c : wsConnection X) : option phase :=
  subPhase <$> goroutines c !! n.


(** A frame that belongs to no subscription: a close frame, or a
    keep_alive (legacy only), connection_error, ping or pong message. *)
Definition control (ex : messageExchanger) (f : frame) : bool :=
  match f with
  | Close _ _ => true
  | Text m =>
      match t m with
      | keepAliveMessageType => bool_decide (ex = graphqlwsMessageExchanger)
      | connectionErrorMessageType | pingMessageType | pongMessageType => true
      | _ => false
      end
  end.

(** What may follow the handshake: no second connection_ack, and no
    keep_alive in the modern dialect. *)
Definition afterAck (ex : messageExchanger) (f : frame) : Prop :=
  kindOf f ≠ Some connectionAckMessageType
  ∧ (ex = graphqltransportwsMessageExchanger ->
     kindOf f ≠ Some keepAliveMessageType).

(** A data, error or complete frame carrying the id [i]. *)
Definition ofSub (i : string) (f : frame) : bool :=
  match f with
  | Text m =>
      bool_decide (id m = i)
      && bool_decide (t m ∈ [dataMessageType; errorMessageType; completeMessageType])
  | Close _ _ => false
  end.

(** A complete frame carrying the id [i]. *)
Definition isComplete (i : string) (f : frame) : bool :=
  match f with
  | Text m => bool_decide (id m = i) && bool_decide (t m = completeMessageType)
  | Close _ _ => false
  end.



(** The ids of the start messages of a schedule. *)
Definition startId (e : event X) : option string :=
  match e with
  | Inbound m => if decide (t m = startMessageType) then Some (id m) else None
  | _ => None
  end.

Definition starts (es : list (event X)) : list string := omap startId es.

(** After a complete frame for [i], no frame of subscription [i]. *)
Fixpoint sealed (i : string) (fs : list frame) : Prop :=
  match fs with
  | [] => True
  | f :: fs' =>
      (isComplete i f = true -> Forall (fun f' => ofSub i f' = false) fs')
      ∧ sealed i fs'
  end.

(** [c'] is [c] with more frames sent, all of them in [Q]; same
    exchanger, same registry, same goroutines. *)
Definition grows (Q : frame -> Prop) (c c' : wsConnection X) : Prop :=
  me c' = me c
  ∧ active c' = active c
  ∧ goroutines c' = goroutines c
  ∧ exists fs, sent c' = sent c ++ fs ∧ Forall Q fs.

(** What one event does to the frames and to the goroutines. *)
Inductive effect (c c' : wsConnection X) (e : event X) : Prop :=
  | effect_control :
      startId e = None ->
      grows (fun f => control (me c) f = true) c c' ->
      effect c c' e
  | effect_rejected (i : string) (fs : list frame) :
      startId e = Some i ->
      me c' = me c ->
      goroutines c' = goroutines c ->
      sent c' = sent c ++ fs ->
      fs = [] ∨ (exists p,
        fs = [Text {| payload := p; id := i; t := errorMessageType |};
              Text {| payload := ""; id := i; t := completeMessageType |}]) ->
      effect c c' e
  | effect_accepted (i : string) (g : task X) :
      startId e = Some i ->
      me c' = me c ->
      goroutines c' = goroutines c ++ [g] ->
      subId g = i ->
      subPhase g = Streaming ->
      sent c' = sent c ->
      effect c c' e
  | effect_streamed (n : nat) (g : task X) (fs : list frame) :
      startId e = None ->
      me c' = me c ->
      goroutines c !! n = Some g ->
      subPhase g = Streaming ->
      goroutines c' = goroutines c ->
      sent c' = sent c ++ fs ->
      Forall (fun f => ofSub (subId g) f = true ∧ isComplete (subId g) f = false) fs ->
      effect c c' e
  | effect_finished (n : nat) (g g' : task X) (fs : list frame) :
      startId e = None ->
      me c' = me c ->
      goroutines c !! n = Some g ->
      subPhase g = Streaming ->
      goroutines c' = <[n := g']> (goroutines c) ->
      subId g' = subId g ->
      subPhase g' ≠ Streaming ->
      sent c' = sent c ++ fs ->
      fs = [] ∨ (exists f, fs = [f] ∧ ofSub (subId g) f = true) ->
      effect c c' e
  | effect_moved (n : nat) (g g' : task X) :
      startId e = None ->
      me c' = me c ->
      goroutines c !! n = Some g ->
      goroutines c' = <[n := g']> (goroutines c) ->
      subId g' = subId g ->
      subPhase g' ≠ Streaming ->
      sent c' = sent c ->
      effect c c' e.

(** The bookkeeping behind the frames of a schedule whose start ids are
    those of [used]. *)
Record tidy (used : list string) (c : wsConnection X) : Prop := {
  tidy_ids : forall k g, goroutines c !! k = Some g -> subId g ∈ used;
  tidy_nodup : forall k k' g g',
    goroutines c !! k = Some g -> goroutines c !! k' = Some g' ->
    subId g = subId g' -> k = k';
  tidy_fresh : forall i, i ∉ used -> Forall (fun f => ofSub i f = false) (sent c);
  tidy_open : forall k g,
    goroutines c !! k = Some g -> subPhase g = Streaming ->
    Forall (fun f => isComplete (subId g) f = false) (sent c);
  tidy_sealed : forall i, sealed i (sent c);
}.

(** A goroutine that has not unregistered yet. *)
Definition live (g : task X) : bool :=
  bool_decide (subPhase g = Streaming) || bool_decide (subPhase g = Completing).

(** What the registry should know of a goroutine. *)
Definition entry (g : task X) : string * nat * bool :=
  (subId g, subCancel g, live g).

Definition entries (c : wsConnection X) : list (string * nat * bool) :=
  entry <$> goroutines c.

(** The registry holds exactly the cancels of the live goroutines, under
    their ids. *)
Definition registered (c : wsConnection X) : Prop :=
  forall i h, active c !! i = Some h <-> (i, h, true) ∈ entries c.

(** What one event does to the registry. *)
Inductive registryEffect (c c' : wsConnection X) : Prop :=
  | registry_kept :
      active c' = active c ->
      entries c' = entries c ->
      registryEffect c c'
  | registry_added (g : task X) :
      active c' = <[subId g := subCancel g]> (active c) ->
      goroutines c' = goroutines c ++ [g] ->
      live g = true ->
      registryEffect c c'
  | registry_removed (n : nat) (g g' : task X) :
      goroutines c !! n = Some g ->
      goroutines c' = <[n := g']> (goroutines c) ->
      subId g' = subId g ->
      live g' = false ->
      active c' = delete (subId g) (active c) ->
      registryEffect c c'.

End Observations.

(** [grows] by frames that belong to no subscription. *)
Abbreviation controlled c := (grows (fun f => control (me c) f = true) c).

(** ** Normal forms and invariants *)

Section Invariants.

Context {X : Externals}.

(** The calls of [ErrorFunc] after a [write]. *)
Definition reports (msg : message) (c : wsConnection X) : list WebsocketError :=
  match wireType (me c) (t msg) with
  | Some _ =>
      if closed c && ErrorFunc (config c)
      then reported c ++ [{| Err := ErrCloseSent; IsReadError := false |}]
      else reported c
  | None => reported c
  end.

(** The frame a call of [close] puts on the socket. *)
Definition closing (code : Z) (reason : string) (c : wsConnection X) : list frame :=
  if closed c then [] else [Close code reason].

Definition isText (f : frame) : bool :=
  match f with
  | Text _ => true
  | Close _ _ => false
  end.

(** The frames sent are text frames, followed by one close frame exactly
    when the socket is closed. *)
Definition wellClosed (c : wsConnection X) : Prop :=
  if closed c
  then exists pre code reason,
         sent c = pre ++ [Close code reason] ∧ Forall (fun f => isText f = true) pre
  else Forall (fun f => isText f = true) (sent c).

(** [c'] comes after [c] in a run: what the handshake fixed is as it was,
    and what can only happen once has not been undone. *)
Record follows (c c' : wsConnection X) : Prop := {
  follows_config : config c' = config c;
  follows_ctx : ctx c' = ctx c;
  follows_me : me c' = me c;
  follows_subprotocol : subprotocol c' = subprotocol c;
  follows_envCancels : envCancels c' = envCancels c;
  follows_initPayload : initPayload c' = initPayload c;
  follows_runCtx : runCtx c' = runCtx c;
  follows_cancelled : cancelled c ⊆ cancelled c';
  follows_closed : closed c = true -> closed c' = true;
  follows_sent : closed c = true -> sent c' = sent c;
  follows_nextCancel : nextCancel c <= nextCancel c';
  follows_reading : reading c' = true -> reading c = true;
  follows_watching : watching c' = true -> watching c = true;
  follows_keepAlive : keepAliveTicker c' = true -> keepAliveTicker c = true;
  follows_pingPong : pingPongTicker c' = true -> pingPongTicker c = true;
}.

(** The state in which the loop of [run] is entered. *)
Record entered (cfg : Websocket X) (proto : string) (envH : nat)
    (c : wsConnection X) : Prop := {
  entered_config : config c = cfg;
  entered_subprotocol : subprotocol c = proto;
  entered_envCancels : envCancels c = envH;
  entered_runCtx : runCtx c = WithCancel (ctx c) envH;
  entered_nextCancel : nextCancel c = S envH;
  entered_closed : closed c = false;
  entered_reading : reading c = true;
  entered_watching : watching c = true;
  entered_cancelled : cancelled c = ∅;
  entered_active : active c = ∅;
  entered_goroutines : goroutines c = [];
  entered_heap : heap c = [];
  entered_invoked : invoked c = [];
  entered_keepAlive :
    keepAliveTicker c = true
    <-> (proto = "" ∨ proto = graphqlwsSubprotocol)
        ∧ (0 < KeepAlivePingInterval cfg)%Z;
  entered_pingPong :
    pingPongTicker c = true
    <-> proto = graphqltransportwsSubprotocol ∧ (0 < PingPongInterval cfg)%Z;
}.

(** [withInitPayload], when there is a payload. *)
Definition attach (ip : option (gmap string (J X))) (ctx : context (J X))
  : context (J X) :=
  match ip with
  | Some p => withInitPayload ctx p
  | None => ctx
  end.

(** The goroutine that [subscribe] starts. *)
Definition spawned (i : string) (c : wsConnection X) : task X :=
  {| subId := i;
     subCtx := WithSubscriptionError
                 (attach (initPayload c) (WithCancel (ctx c) (nextCancel c)))
                 (length (heap c));
     svcCtx := WithCancel (ctx c) (nextCancel c);
     subCancel := nextCancel c;
     chanClosed := false;
     subPhase := Streaming |}.

(** What one event does to the goroutines and to what they hold. *)
Inductive taskEffect (c c' : wsConnection X) : Prop :=
  | tasks_kept :
      goroutines c' = goroutines c ->
      heap c' = heap c ->
      invoked c' = invoked c ->
      nextCancel c' = nextCancel c ->
      taskEffect c c'
  | tasks_refused (params : startMessagePayload (J X)) :
      goroutines c' = goroutines c ->
      heap c' = heap c ->
      invoked c' = invoked c ++ [(WithCancel (ctx c) (nextCancel c), params)] ->
      nextCancel c' = S (nextCancel c) ->
      taskEffect c c'
  | tasks_spawned (i : string) (params : startMessagePayload (J X)) :
      goroutines c' = goroutines c ++ [spawned i c] ->
      heap c' = heap c ++ [[]] ->
      invoked c' = invoked c ++ [(WithCancel (ctx c) (nextCancel c), params)] ->
      nextCancel c' = S (nextCancel c) ->
      taskEffect c c'
  | tasks_moved (n : nat) (g : task X) (ph : phase) (cl : bool) :
      goroutines c !! n = Some g ->
      goroutines c' = <[n := setPhase X ph cl g]> (goroutines c) ->
      heap c' = heap c ->
      invoked c' = invoked c ->
      nextCancel c' = nextCancel c ->
      taskEffect c c'
  | tasks_deposited (n : nat) (g : task X) (err : gqlerror) :
      goroutines c !! n = Some g ->
      goroutines c' = goroutines c ->
      heap c' = AddSubscriptionError (svcCtx g) err (heap c) ->
      invoked c' = invoked c ->
      nextCancel c' = nextCancel c ->
      taskEffect c c'.

(** How the goroutines, their contexts, their cancel handles and their
    error slots hang together. *)
Record orderly (c : wsConnection X) : Prop := {
  orderly_next : envCancels c < nextCancel c;
  orderly_heap : length (heap c) = length (goroutines c);
  orderly_ctx : forall k g,
    goroutines c !! k = Some g ->
    svcCtx g = WithCancel (ctx c) (subCancel g)
    ∧ subCtx g = WithSubscriptionError (attach (initPayload c) (svcCtx g)) k;
  orderly_cancel : forall k g,
    goroutines c !! k = Some g -> envCancels c < subCancel g < nextCancel c;
  orderly_distinct : forall k k' g g',
    goroutines c !! k = Some g -> goroutines c !! k' = Some g' ->
    subCancel g = subCancel g' -> k = k';
  orderly_invoked : forall ctx1 params,
    (ctx1, params) ∈ invoked c ->
    exists h, ctx1 = WithCancel (ctx c) h ∧ envCancels c < h < nextCancel c;
}.

(** No error was deposited in any slot. *)
Definition blank (c : wsConnection X) : Prop :=
  Forall (fun errs => errs = []) (heap c).

(** Once the loop of [run] is left, the socket is closed and the context
    of the timers and of the watcher is cancelled. *)
Definition exits (c : wsConnection X) : Prop :=
  exists parent h,
    runCtx c = WithCancel parent h
    ∧ (reading c = false -> closed c = true ∧ h ∈ cancelled c).

(** Once the socket is closed, every cancel of the registry was invoked. *)
Definition swept (c : wsConnection X) : Prop :=
  closed c = true -> forall i h, active c !! i = Some h -> h ∈ cancelled c.


(** How [init] refuses a connection: silently, or with a close frame
    that may follow one [connection_error]. *)
Inductive refusal (a : arrival) (c : wsConnection X) : Prop :=
  | refused_silently (d : Z) (m : message) :
      a = After d (Msg m) ->
      t m = initMessageType ->
      payload m ≠ "" ->
      jsonDecodeInit X (payload m) = None ->
      sent c = [] ->
      closed c = false ->
      refusal a c
  | refused_closing (pre : list frame) (code : Z) (reason : string) :
      sent c = pre ++ [Close code reason] ->
      closed c = true ->
      code = websocket.CloseProtocolError ∨ code = websocket.CloseNormalClosure ->
      Forall (fun f => kindOf f = Some connectionErrorMessageType) pre ->
      length pre <= 1 ->
      refusal a c.

End Invariants.

(** ** More runs of the concrete connection *)

Module Scenes.

(** A [connection_init] that carries the empty object. *)
Definition hello : message :=
  {| payload := "{}"; id := ""; t := initMessageType |}.

(** The connection for which [Do] enters the loop of [run], when the
    first message is [hello]. *)
Definition enter (cfg : Websocket Demo.X) (proto : string) (ctx0 : context string)
    (envH : nat) : wsConnection Demo.X :=
  match Do Demo.X cfg proto ctx0 envH 0 (After 0 (Msg hello)) false with
  | Serving c => c
  | _ => newConnection Demo.X cfg proto graphqlwsMessageExchanger ctx0 envH 0
  end.

Definition play (c : wsConnection Demo.X) (es : list (event Demo.X))
  : wsConnection Demo.X :=
  default c (exec Demo.X c es).

(** The legacy connection whose init payload is the empty object. *)
Definition welcomed : wsConnection Demo.X :=
  enter Demo.options graphqlwsSubprotocol Background 0.

(** KeepAlivePingInterval = 1s. *)
Definition patient : Websocket Demo.X :=
  {| InitFunc := None; InitTimeout := 0; ErrorFunc := true;
     KeepAlivePingInterval := 1000000000; PingPongInterval := 0 |}.

Definition ticking : wsConnection Demo.X :=
  enter patient graphqlwsSubprotocol Background 0.

(** KeepAlivePingInterval = -1ns. *)
Definition broken : Websocket Demo.X :=
  {| InitFunc := None; InitTimeout := 0; ErrorFunc := true;
     KeepAlivePingInterval := -1; PingPongInterval := 0 |}.

(** A request context that its owner can cancel, with a close reason. *)
Definition owned : context string :=
  WithCloseReason (WithCancel Background 0) "shutting down".

Definition hosted : wsConnection Demo.X :=
  enter Demo.options graphqlwsSubprotocol owned 1.

(** A query that the service of [Demo] refuses. *)
Definition failing : string :=
  ("{" ++ quote ++ "query" ++ quote ++ ":" ++ quote ++ "fail" ++ quote ++ "}")%string.

Definition terminate : message :=
  {| payload := ""; id := ""; t := connectionCloseMessageType |}.

(** One subscription; the service deposits an error; the channel is
    closed. *)
Definition deposited : list (event Demo.X) :=
  [Inbound (Demo.startMsg "1" Demo.tick);
   Deposit 0 {| Message := "boom" |};
   Demo.recv 0 None].

(** One subscription and one payload. *)
Definition streaming : list (event Demo.X) :=
  [Inbound (Demo.startMsg "1" Demo.tick); Demo.recv 0 (Some (Demo.Int 1))].

(** One subscription, then connection_terminate. *)
Definition cut : list (event Demo.X) :=
  [Inbound (Demo.startMsg "1" Demo.tick); Inbound terminate].

(** A keep-alive tick, connection_terminate, one more tick. *)
Definition ticked : list (event Demo.X) :=
  [KeepAliveTick; Inbound terminate; KeepAliveTick].

(** Goroutine 0 of a connection. *)
Definition first (c : wsConnection Demo.X) : task Demo.X :=
  default Demo.worker (goroutines c !! 0).

End Scenes.

(** * Properties *)

(** ** The message exchanger's close normalisation *)

(** C5: a close error with code NormalClosure or NoStatusReceived is
    normalised to [errWsConnClosed]; a close error with any other code and
    every error that is not a close error are returned unchanged. *)
Theorem handleNextReaderError_normalises (err : error) :
  match err with
  | CloseError code text =>
      handleNextReaderError err =
        if decide (code = websocket.CloseNormalClosure
                   ∨ code = websocket.CloseNoStatusReceived)
        then errWsConnClosed
        else CloseError code text
  | _ => handleNextReaderError err = err
  end.
Proof.
  destruct err as [| | | | |code text|msg]; try reflexivity.
  unfold handleNextReaderError, IsCloseError.
  case_bool_decide as Hin; case_decide as Hor; try reflexivity; exfalso.
  - apply Hor. rewrite !elem_of_cons, elem_of_nil in Hin. tauto.
  - apply Hin. rewrite !elem_of_cons. tauto.
Qed.

(** ** The base64 encoding *)

(** The test vectors of RFC 4648. *)
Example StdEncoding_vectors :
  map (fun s => string_of_list_ascii (StdEncoding (list_ascii_of_string s)))
    [""; "f"; "fo"; "foo"; "foob"; "fooba"; "foobar"]
  = [""; "Zg=="; "Zm8="; "Zm9v"; "Zm9vYg=="; "Zm9vYmE="; "Zm9vYmFy"].
Proof. reflexivity. Qed.

(** The cases of [TestHandleNextReaderError]. *)
Example handleNextReaderError_cases :
  handleNextReaderError (CloseError websocket.CloseNormalClosure "") = errWsConnClosed
  ∧ handleNextReaderError (CloseError websocket.CloseNoStatusReceived "") = errWsConnClosed
  ∧ handleNextReaderError (errorString "some other error") = errorString "some other error"
  ∧ handleNextReaderError (CloseError websocket.CloseAbnormalClosure "")
    = CloseError websocket.CloseAbnormalClosure "".
Proof. repeat split. Qed.

(** ** The subscription-error capture channel *)

Section Capture.

Context {J : Type}.
Implicit Types (ctx : context J) (heap : errHeap) (errs : list gqlerror).

Lemma AddSubscriptionError_length ctx err heap :
  length (AddSubscriptionError ctx err heap) = length heap.
Proof.
  unfold AddSubscriptionError.
  destruct (getSubscriptionErrorStruct ctx) as [slot|]; [|done].
  destruct (heap !! slot); [|done]. by rewrite length_insert.
Qed.

Lemma getSubscriptionError_Add ctx err heap slot :
  getSubscriptionErrorStruct ctx = Some slot ->
  slot < length heap ->
  getSubscriptionError ctx (AddSubscriptionError ctx err heap)
  = getSubscriptionError ctx heap ++ [err].
Proof.
  intros Hs Hlt. unfold getSubscriptionError, AddSubscriptionError. rewrite Hs.
  destruct (lookup_lt_is_Some_2 heap slot Hlt) as [errs Herrs].
  rewrite Herrs. rewrite list_lookup_insert_eq by done. done.
Qed.

(** Deposits pile up behind what the slot already holds. *)
Lemma getSubscriptionError_depositAll ctx errs heap slot :
  getSubscriptionErrorStruct ctx = Some slot ->
  slot < length heap ->
  getSubscriptionError ctx (depositAll ctx errs heap)
  = getSubscriptionError ctx heap ++ errs.
Proof.
  intros Hs. revert heap. unfold depositAll.
  induction errs as [|e errs IH]; intros heap Hlt; simpl.
  - by rewrite app_nil_r.
  - rewrite IH by (by rewrite AddSubscriptionError_length).
    rewrite (getSubscriptionError_Add _ _ _ slot) by done.
    by rewrite <- app_assoc.
Qed.

(** C9: on a context where the channel was never installed, appending
    changes nothing (and returns), and collecting yields the empty list;
    on the context returned by the install, collecting after any
    sequence of appends returns exactly the appended errors, in the
    order of the appends. *)
Theorem capture_channel ctx heap errs err :
  (getSubscriptionErrorStruct ctx = None ->
     AddSubscriptionError ctx err heap = heap
     ∧ getSubscriptionError ctx heap = []
     ∧ getSubscriptionError ctx (depositAll ctx errs heap) = [])
  ∧ (let '(ctx', heap') := withSubscriptionErrorContext ctx heap in
     getSubscriptionError ctx' (depositAll ctx' errs heap') = errs).
Proof.
  split.
  - intros Hnone. unfold AddSubscriptionError, getSubscriptionError.
    rewrite Hnone. done.
  - unfold withSubscriptionErrorContext.
    rewrite (getSubscriptionError_depositAll _ _ _ (length heap)).
    + unfold getSubscriptionError. simpl.
      rewrite lookup_app_r by done. by rewrite Nat.sub_diag.
    + done.
    + rewrite length_app. simpl. lia.
Qed.

End Capture.

(** [TestAddAndGetSubscriptionError] and the uninstalled case. *)
Example capture_channel_cases :
  let e1 := {| Message := "First error" |} in
  let e2 := {| Message := "Second error" |} in
  let '(ctx, heap) := withSubscriptionErrorContext (J := string) Background [] in
  getSubscriptionError ctx (AddSubscriptionError ctx e2 (AddSubscriptionError ctx e1 heap))
  = [e1; e2]
  ∧ getSubscriptionError ctx heap = []
  ∧ AddSubscriptionError (J := string) Background e1 heap = heap
  ∧ getSubscriptionError (J := string) (WithCancel Background 0) heap = [].
Proof. repeat split. Qed.


(** ** Handlers of the connection *)

Section Handlers.

Context {X : Externals}.
Implicit Types (c : wsConnection X) (g : task X) (m msg : message).

(** Unfolds the write path down to the record. *)
Ltac write_path :=
  unfold sendResponse, complete, sendError, sendConnectionError, write, Send,
    handlePossibleError, wrote in *.

Lemma write_sent msg c : sent (write X msg c) = sent c ++ wrote msg c.
Proof.
  write_path. destruct (wireType (me c) (t msg)); [|by rewrite app_nil_r].
  destruct (closed c); simpl; [|done].
  destruct (ErrorFunc (config c)); simpl; by rewrite app_nil_r.
Qed.

Lemma write_me msg c : me (write X msg c) = me c.
Proof. write_path. by repeat case_match; simplify_eq. Qed.

Lemma write_closed msg c : closed (write X msg c) = closed c.
Proof. write_path. by repeat case_match; simplify_eq. Qed.

Lemma write_active msg c : active (write X msg c) = active c.
Proof. write_path. by repeat case_match; simplify_eq. Qed.

Lemma write_goroutines msg c : goroutines (write X msg c) = goroutines c.
Proof. write_path. by repeat case_match; simplify_eq. Qed.

Lemma write_invoked msg c : invoked (write X msg c) = invoked c.
Proof. write_path. by repeat case_match; simplify_eq. Qed.

Lemma write_heap msg c : heap (write X msg c) = heap c.
Proof. write_path. by repeat case_match; simplify_eq. Qed.

Lemma write_cancelled msg c : cancelled (write X msg c) = cancelled c.
Proof. write_path. by repeat case_match; simplify_eq. Qed.

Lemma wrote_open msg c :
  closed c = false -> is_Some (wireType (me c) (t msg)) -> wrote msg c = [Text msg].
Proof. intros Hc [w Hw]. unfold wrote. by rewrite Hw, Hc. Qed.

(** *** A pong in the Ready state *)

Lemma wrap64_small (z : Z) : (- 2 ^ 63 <= z < 2 ^ 63)%Z -> wrap64 z = z.
Proof.
  intros Hz. unfold wrap64.
  rewrite Z.mod_small by lia. lia.
Qed.

(** C10: in the Ready state (the loop is reading, the socket is open) an
    inbound pong sets the read deadline to now + 2 x PingPongInterval,
    whatever the dialect and whatever the interval (the product is the
    64-bit one of the source, which is the exact one for intervals
    below 2^62 ns), and changes nothing else; with an interval of 0 the
    deadline is the current instant. *)
Theorem pong_sets_read_deadline c m :
  t m = pongMessageType ->
  reading c = true ->
  closed c = false ->
  step X c (Inbound m)
  = Some (SetReadDeadline X (now c + wrap64 (2 * PingPongInterval (config c)))%Z c)
  ∧ ((- 2 ^ 62 <= PingPongInterval (config c) < 2 ^ 62)%Z ->
     (readDeadline <$> step X c (Inbound m))
     = Some (Some (now c + 2 * PingPongInterval (config c))%Z))
  ∧ (PingPongInterval (config c) = 0%Z ->
     (readDeadline <$> step X c (Inbound m)) = Some (Some (now c))).
Proof.
  intros Hm Hr Hc.
  assert (Hstep : step X c (Inbound m)
            = Some (SetReadDeadline X (pongDeadline X c) c)).
  { unfold step, dispatch. by rewrite Hr, Hc, Hm. }
  rewrite Hstep. unfold pongDeadline. split; [done|]. split.
  - intros Hsmall. simpl. rewrite wrap64_small by lia. done.
  - intros Hzero. simpl. rewrite Hzero. unfold wrap64. simpl.
    by rewrite Z.add_0_r.
Qed.

(** *** A start whose payload does not decode *)

(** C6: in the Ready state, a start message whose payload does not
    decode makes the server emit an error frame for the message's id
    with the message "invalid json", then a complete frame for that id,
    and nothing else; Subscribe is not invoked, the registry and the set
    of goroutines are as before. *)
Theorem start_with_invalid_json c msg :
  t msg = startMessageType ->
  jsonDecodeStart X (payload msg) = None ->
  reading c = true ->
  closed c = false ->
  exists c',
    step X c (Inbound msg) = Some c'
    ∧ sent c' = sent c ++
        [Text {| payload := jsonMarshalErrors X [{| Message := "invalid json" |}];
                 id := id msg; t := errorMessageType |};
         Text {| payload := ""; id := id msg; t := completeMessageType |}]
    ∧ invoked c' = invoked c
    ∧ active c' = active c
    ∧ goroutines c' = goroutines c.
Proof.
  intros Hm Hdec Hr Hc. eexists. split.
  { unfold step, dispatch. rewrite Hr, Hc, Hm. simpl. reflexivity. }
  unfold subscribe. rewrite Hdec. unfold complete, sendError.
  rewrite !write_sent, !write_invoked, !write_active, !write_goroutines.
  repeat split; try done.
  rewrite !wrote_open; rewrite ?write_closed, ?write_me; try done.
  - by rewrite <- app_assoc.
  - by destruct (me c).
  - by destruct (me c).
Qed.

(** *** The end of a subscription goroutine *)

Lemma finish_sent g c :
  sent (finish X g c) = sent c ++ (if closed c then [] else [terminalFrame g c]).
Proof.
  unfold finish, terminalFrame.
  destruct (getSubscriptionError (subCtx g) (heap c)) as [|e errs];
    unfold complete, sendError; rewrite write_sent; unfold wrote; simpl;
    by destruct (me c), (closed c).
Qed.

Lemma finish_fields g c :
  me (finish X g c) = me c ∧ closed (finish X g c) = closed c
  ∧ active (finish X g c) = active c ∧ goroutines (finish X g c) = goroutines c
  ∧ heap (finish X g c) = heap c ∧ cancelled (finish X g c) = cancelled c
  ∧ invoked (finish X g c) = invoked c.
Proof.
  unfold finish. destruct (getSubscriptionError (subCtx g) (heap c));
    unfold complete, sendError;
    by rewrite write_me, write_closed, write_active, write_goroutines,
      write_heap, write_cancelled, write_invoked.
Qed.




(** *** The first message *)

(** C8: with a non-zero InitTimeout, when no message arrives within it
    (none at all, or one later than the timer) the connection is closed
    with ProtocolError and the reason "connection initialisation
    timeout", nothing else is written and the read loop is not entered;
    with InitTimeout zero the wait is unbounded: Do waits for ever if no
    message comes, and what it does with a message does not depend on
    how late it arrives. *)
Theorem init_timeout cfg proto ctx0 envH clock a tie :
  proto ∈ [graphqlwsSubprotocol; ""; graphqltransportwsSubprotocol] ->
  (InitTimeout cfg ≠ 0%Z ->
     (a = Never ∨ exists d r, a = After d r ∧ (Z.max 0 (InitTimeout cfg) < d)%Z) ->
     exists c,
       Do X cfg proto ctx0 envH clock a tie = Refused c
       ∧ sent c = [Close websocket.CloseProtocolError
                     "connection initialisation timeout"]
       ∧ closed c = true
       ∧ reading c = false)
  ∧ (InitTimeout cfg = 0%Z ->
     match a with
     | Never => Do X cfg proto ctx0 envH clock a tie = Waiting
     | After d r =>
         forall d' tie',
           Do X cfg proto ctx0 envH clock (After d r) tie
           = Do X cfg proto ctx0 envH clock (After d' r) tie'
     end).
Proof.
  intros Hproto.
  assert (Hex : exists ex,
    forall a' tie', Do X cfg proto ctx0 envH clock a' tie'
    = match init X a' tie' (newConnection X cfg proto ex ctx0 envH clock) with
      | None => Waiting
      | Some (false, c) => Refused c
      | Some (true, c) =>
          match runStart X c with None => Panicked | Some c' => Serving c' end
      end).
  { rewrite !elem_of_cons, elem_of_nil in Hproto.
    destruct Hproto as [->|[->|[->|[]]]]; eexists; intros; reflexivity. }
  destruct Hex as [ex HDo]. split.
  - intros Hnz Hlate.
    assert (Hread : nextMessageWithTimeout (InitTimeout cfg) a tie
                    = Fail errReadTimeout).
    { destruct Hlate as [->|(d & r & -> & Hd)]; [done|].
      unfold nextMessageWithTimeout.
      destruct (Z.ltb_spec (Z.max 0 d) (Z.max 0 (InitTimeout cfg))); [lia|].
      destruct (Z.ltb_spec (Z.max 0 (InitTimeout cfg)) (Z.max 0 d)); [done|lia]. }
    eexists. rewrite HDo. unfold init. simpl.
    rewrite decide_True by done. rewrite Hread. simpl.
    split; [reflexivity|]. done.
  - intros Hz. destruct a as [|d r].
    + rewrite HDo. unfold init. simpl. by case_decide.
    + intros d' tie'. rewrite !HDo. unfold init. simpl. by case_decide.
Qed.

(** *** A delivered payload is encoded twice *)

Lemma StdEncoding_length_aux n : forall src,
  length src < n -> length src <= length (StdEncoding src).
Proof.
  induction n as [|n IH]; intros src Hn; [lia|].
  destruct src as [|x [|y [|z rest]]]; simpl in *; try lia.
  specialize (IH rest). lia.
Qed.

Lemma length_string_append (s1 s2 : string) :
  String.length (s1 ++ s2)%string = String.length s1 + String.length s2.
Proof. induction s1 as [|ch s1 IH]; simpl; [done|]. by rewrite IH. Qed.

Lemma length_string_of_list_ascii (l : list ascii) :
  String.length (string_of_list_ascii l) = length l.
Proof. induction l as [|ch l IH]; simpl; [done|]. by rewrite IH. Qed.

Lemma length_list_ascii_of_string (s : string) :
  length (list_ascii_of_string s) = String.length s.
Proof. induction s as [|ch s IH]; simpl; [done|]. by rewrite IH. Qed.

Lemma jsonMarshalBytes_longer (response : string) :
  String.length response < String.length (jsonMarshalBytes response).
Proof.
  unfold jsonMarshalBytes.
  rewrite !length_string_append, length_string_of_list_ascii.
  pose proof (StdEncoding_length_aux _ (list_ascii_of_string response) (Nat.lt_succ_diag_r _)).
  rewrite length_list_ascii_of_string in *. simpl. lia.
Qed.

(** What [json.Marshal] made of the payload is never what the data frame
    carries. *)
Lemma deliver_encodes_twice c g p jsonPayload :
  jsonMarshal X p = inl jsonPayload ->
  closed c = false ->
  sent (deliver X g p c)
  = sent c ++ [Text {| payload := jsonMarshalBytes jsonPayload; id := subId g;
                       t := dataMessageType |}]
  ∧ jsonMarshalBytes jsonPayload ≠ jsonPayload.
Proof.
  intros Hp Hc. unfold deliver, sendResponse. rewrite Hp, write_sent. split.
  - rewrite wrote_open; [done|done|]. by destruct (me c).
  - intros Heq. pose proof (jsonMarshalBytes_longer jsonPayload) as Hlt.
    rewrite Heq in Hlt. lia.
Qed.

(** *** Growth of the frame sequence *)

Lemma grows_refl Q c : grows Q c c.
Proof. repeat (split; [done|]). exists []. by rewrite app_nil_r. Qed.

Lemma grows_trans Q c1 c2 c3 : grows Q c1 c2 -> grows Q c2 c3 -> grows Q c1 c3.
Proof.
  intros (Hm1 & Ha1 & Hg1 & fs1 & Hs1 & HQ1) (Hm2 & Ha2 & Hg2 & fs2 & Hs2 & HQ2).
  repeat (split; [congruence|]).
  exists (fs1 ++ fs2). rewrite Hs2, Hs1, app_assoc. split; [done|].
  by apply Forall_app.
Qed.

Lemma grows_write Q c0 c msg :
  grows Q c0 c ->
  (is_Some (wireType (me c0) (t msg)) -> Q (Text msg)) ->
  grows Q c0 (write X msg c).
Proof.
  intros Hc HQ. eapply grows_trans; [exact Hc|].
  destruct Hc as (Hm & _). split; [apply write_me|].
  split; [apply write_active|]. split; [apply write_goroutines|].
  exists (wrote msg c). split; [apply write_sent|].
  unfold wrote. rewrite Hm.
  destruct (wireType (me c0) (t msg)) eqn:Hw; [|constructor].
  destruct (closed c); constructor; [|constructor]. apply HQ. by eexists.
Qed.

Lemma grows_close Q c0 c code reason :
  grows Q c0 c -> Q (Close code reason) -> grows Q c0 (close X code reason c).
Proof.
  intros Hc HQ. eapply grows_trans; [exact Hc|].
  unfold close. repeat (split; [by destruct (closed c)|]).
  destruct (closed c); simpl.
  - exists []. by rewrite app_nil_r.
  - exists [Close code reason]. split; [done|]. by constructor.
Qed.

(** A step that leaves the socket, the exchanger and the goroutines
    alone. *)
Lemma grows_same Q c0 c c' :
  grows Q c0 c ->
  me c' = me c -> active c' = active c -> goroutines c' = goroutines c ->
  sent c' = sent c ->
  grows Q c0 c'.
Proof.
  intros (Hm & Ha & Hg & fs & Hs & HQ) Hm' Ha' Hg' Hs'.
  repeat (split; [congruence|]). exists fs. by rewrite Hs'.
Qed.

(** Walks down a handler, one call after the other. *)
Ltac grow :=
  lazymatch goal with
  | |- grows _ ?c ?c => apply grows_refl
  | |- grows _ _ (write _ _ _) => apply grows_write; [grow|]
  | |- grows _ _ (close _ _ _ _) => apply grows_close; [grow|]
  | |- grows _ _ (sendConnectionError _ _ _ _) =>
      unfold sendConnectionError; grow
  | |- grows _ _ (handlePossibleError _ _ _ _) =>
      unfold handlePossibleError; grow
  | |- grows _ _ (runExit _ _) => unfold runExit; grow
  | |- grows _ _ (cancel _ _ _) => unfold cancel; grow
  | |- grows _ _ (match ?x with _ => _ end _) => destruct x; grow
  | |- grows _ _ (match ?x with _ => _ end) => destruct x; grow
  | |- grows _ _ (?f _ _ _ _ ?c) =>
      apply (grows_same _ _ c);
        [grow|reflexivity|reflexivity|reflexivity|reflexivity]
  | |- grows _ _ (?f _ _ _ ?c) =>
      apply (grows_same _ _ c);
        [grow|reflexivity|reflexivity|reflexivity|reflexivity]
  | |- grows _ _ (?f _ _ ?c) =>
      apply (grows_same _ _ c);
        [grow|reflexivity|reflexivity|reflexivity|reflexivity]
  | |- grows _ _ (?f _ ?c) =>
      apply (grows_same _ _ c);
        [grow|reflexivity|reflexivity|reflexivity|reflexivity]
  | _ => idtac
  end.

Lemma runExit_controlled c0 c :
  controlled c0 c -> controlled c0 (runExit X c).
Proof. intros Hc. grow; done. Qed.

Lemma readFailed_controlled c err : controlled c (readFailed X err c).
Proof. unfold readFailed. grow; done. Qed.

Lemma closeOnCancel_controlled c : controlled c (closeOnCancel X c).
Proof. unfold closeOnCancel. grow; done. Qed.

Lemma dispatch_controlled c m :
  t m ≠ startMessageType -> controlled c (dispatch X m c).
Proof.
  intros Hm. unfold dispatch.
  destruct (t m); try done; grow; try done;
    intros [w Hw]; by destruct (me c).
Qed.

(** *** The effect of one event *)

Lemma wrote_cases msg c : wrote msg c = [] ∨ wrote msg c = [Text msg].
Proof. unfold wrote. destruct (wireType _ _), (closed c); auto. Qed.

Lemma ofSub_true i p k :
  k ∈ [dataMessageType; errorMessageType; completeMessageType] ->
  ofSub i (Text {| payload := p; id := i; t := k |}) = true.
Proof.
  intros Hk. unfold ofSub. simpl.
  by rewrite bool_decide_eq_true_2, bool_decide_eq_true_2.
Qed.

Lemma isComplete_other i m :
  t m ≠ completeMessageType -> isComplete i (Text m) = false.
Proof.
  intros Hk. unfold isComplete.
  by rewrite (bool_decide_eq_false_2 _ Hk), andb_false_r.
Qed.

Lemma subscribe_effect c m :
  t m = startMessageType ->
  closed c = false ->
  effect c (subscribe X (ctx c) m c) (Inbound m).
Proof.
  intros Hm Hc.
  assert (Hid : startId (Inbound (X := X) m) = Some (id m)).
  { simpl. by rewrite decide_True. }
  assert (Hpair : forall c1 p,
    closed c1 = false ->
    sent (complete X (id m) (sendError X (id m) p c1))
    = sent c1 ++ [Text {| payload := jsonMarshalErrors X p; id := id m;
                          t := errorMessageType |};
                  Text {| payload := ""; id := id m; t := completeMessageType |}]).
  { intros c1 p Hc1. unfold complete, sendError. rewrite !write_sent.
    rewrite !wrote_open; rewrite ?write_closed, ?write_me; try done.
    - by rewrite <- app_assoc.
    - by destruct (me c1).
    - by destruct (me c1). }
  unfold subscribe. destruct (jsonDecodeStart X (payload m)) as [params|].
  - destruct (Subscribe X _ _ _ _) as [err|].
    + eapply effect_rejected; [exact Hid| | | |right; eauto].
      * unfold cancel, complete, sendError. simpl. by rewrite !write_me.
      * unfold cancel, complete, sendError. simpl.
        by rewrite !write_goroutines.
      * unfold cancel. simpl. by rewrite Hpair.
    + eapply effect_accepted; [exact Hid| | | | |]; simpl; done.
  - eapply effect_rejected; [exact Hid| | | |right; eauto].
    + unfold complete, sendError. by rewrite !write_me.
    + unfold complete, sendError. by rewrite !write_goroutines.
    + by rewrite Hpair.
Qed.

Lemma finish_effect c c' e n g g' :
  startId e = None ->
  goroutines c !! n = Some g ->
  subPhase g = Streaming ->
  subId g' = subId g ->
  subPhase g' ≠ Streaming ->
  c' = setTask X n g' (finish X g c) ->
  effect c c' e.
Proof.
  intros He Hg Hph Hid Hph' ->.
  destruct (finish_fields g c) as (Hfm & _ & _ & Hfg & _).
  eapply (effect_finished _ _ _ n g g'); try done.
  - simpl. by rewrite Hfg.
  - simpl. apply finish_sent.
  - destruct (closed c); [by left|right]. eexists. split; [done|].
    unfold terminalFrame. destruct (getSubscriptionError _ _);
      apply ofSub_true; set_solver.
Qed.

Lemma step_effect c e c' : step X c e = Some c' -> effect c c' e.
Proof.
  destruct e as [m|err| | | | |d|h| |n x|n|n|n err]; simpl; intros Hstep.
  - destruct (reading c); [|done]. destruct (closed c) eqn:Hc; [done|].
    simpl in Hstep. injection Hstep as <-.
    destruct (decide (t m = startMessageType)) as [Hm|Hm].
    + unfold dispatch. rewrite Hm. by apply subscribe_effect.
    + apply effect_control; [simpl; by rewrite decide_False|].
      by apply dispatch_controlled.
  - destruct (reading c); [|done]. injection Hstep as <-.
    apply effect_control; [done|]. apply readFailed_controlled.
  - destruct (keepAliveTicker c); [|done]. injection Hstep as <-.
    apply effect_control; [done|]. grow. intros [w Hw]. by destruct (me c).
  - destruct (keepAliveTicker c && ctxDone _ _); [|done]. injection Hstep as <-.
    apply effect_control; [done|]. grow.
  - destruct (pingPongTicker c); [|done]. injection Hstep as <-.
    apply effect_control; [done|]. grow. intros [w Hw]. by destruct (me c).
  - destruct (pingPongTicker c && ctxDone _ _); [|done]. injection Hstep as <-.
    apply effect_control; [done|]. grow.
  - destruct (0 <=? d)%Z; [|done]. injection Hstep as <-.
    apply effect_control; [done|]. grow.
  - destruct (h <? envCancels c)%nat; [|done]. injection Hstep as <-.
    apply effect_control; [done|]. grow.
  - destruct (watching c && ctxDone _ _); [|done]. injection Hstep as <-.
    apply effect_control; [done|]. apply closeOnCancel_controlled.
  - destruct (goroutines c !! n) as [g|] eqn:Hg; [|done]. simpl in Hstep.
    unfold receive in Hstep.
    destruct (subPhase g) eqn:Hph, x as [p|]; try done.
    + destruct (chanClosed g); [done|]. injection Hstep as <-.
      unfold deliver. destruct (jsonMarshal X p) as [b|err].
      all: unfold sendResponse, sendError.
      all: match goal with |- effect _ (write _ ?msg _) _ =>
             eapply (effect_streamed _ _ _ n g (wrote msg c));
             [done|apply write_me|done|done|apply write_goroutines
             |apply write_sent|];
             destruct (wrote_cases msg c) as [->| ->] end.
      all: repeat constructor.
      all: try (apply ofSub_true; set_solver).
      all: by apply isComplete_other.
    + injection Hstep as <-.
      by eapply (finish_effect _ _ _ n g (setPhase X Completing true g)).
    + destruct (chanClosed g); [done|]. injection Hstep as <-.
      apply effect_control; [done|]. apply grows_refl.
    + injection Hstep as <-.
      by eapply (effect_moved _ _ _ n g (setPhase X Exited true g)).
  - destruct (goroutines c !! n) as [g|] eqn:Hg; [|done]. simpl in Hstep.
    destruct (bool_decide (subPhase g = Streaming)) eqn:Hph; [|done].
    apply bool_decide_eq_true in Hph.
    destruct (ctxDone _ _); [|done]. injection Hstep as <-.
    by eapply (finish_effect _ _ _ n g (setPhase X Completing (chanClosed g) g)).
  - destruct (goroutines c !! n) as [g|] eqn:Hg; [|done]. simpl in Hstep.
    destruct (bool_decide (subPhase g = Completing)) eqn:Hph; [|done].
    apply bool_decide_eq_true in Hph. injection Hstep as <-.
    by eapply (effect_moved _ _ _ n g (setPhase X Draining (chanClosed g) g)).
  - destruct (goroutines c !! n) as [g|] eqn:Hg; [|done]. simpl in Hstep.
    injection Hstep as <-. apply effect_control; [done|]. grow.
Qed.

Lemma step_me c e c' : step X c e = Some c' -> me c' = me c.
Proof.
  intros Hstep.
  by destruct (step_effect _ _ _ Hstep) as [_ (Hm & _)| | | | |].
Qed.

(** *** The handshake and what follows it *)

Lemma control_afterAck ex f : control ex f = true -> afterAck ex f.
Proof.
  destruct f as [m|code reason]; [|by split].
  unfold control, afterAck. simpl. destruct (t m); try done.
  intros Hex%bool_decide_eq_true. split; [done|]. by rewrite Hex.
Qed.

Lemma ofSub_afterAck ex i f : ofSub i f = true -> afterAck ex f.
Proof.
  destruct f as [m|code reason]; [|done].
  unfold ofSub, afterAck. simpl. intros [_ Hk%bool_decide_eq_true]%andb_true_iff.
  rewrite !elem_of_cons, elem_of_nil in Hk.
  destruct Hk as [->|[->|[->|[]]]]; by split.
Qed.

Lemma effect_afterAck c c' e :
  effect c c' e ->
  me c' = me c ∧ exists fs, sent c' = sent c ++ fs ∧ Forall (afterAck (me c)) fs.
Proof.
  intros [_ (Hm & _ & _ & fs & Hs & Hfs)
         |i fs _ Hm _ Hs Hfs
         |i g _ Hm _ _ _ Hs
         |n g fs _ Hm _ _ _ Hs Hfs
         |n g g' fs _ Hm _ _ _ _ _ Hs Hfs
         |n g g' _ Hm _ _ _ _ Hs]; (split; [done|]).
  - exists fs. split; [done|]. eapply Forall_impl; [exact Hfs|].
    apply control_afterAck.
  - exists fs. split; [done|].
    destruct Hfs as [->|[p ->]]; repeat constructor; done.
  - exists []. by rewrite app_nil_r.
  - exists fs. split; [done|]. eapply Forall_impl; [exact Hfs|].
    intros f [Hf _]. by eapply ofSub_afterAck.
  - exists fs. split; [done|].
    destruct Hfs as [->|(f & -> & Hf)]; [constructor|].
    apply Forall_singleton. by eapply ofSub_afterAck.
  - exists []. by rewrite app_nil_r.
Qed.

Lemma exec_afterAck es : forall c c',
  exec X c es = Some c' ->
  me c' = me c ∧ exists fs, sent c' = sent c ++ fs ∧ Forall (afterAck (me c)) fs.
Proof.
  induction es as [|e es IH]; intros c c'; simpl.
  - intros [= <-]. split; [done|]. exists []. by rewrite app_nil_r.
  - destruct (step X c e) as [c1|] eqn:Hstep; [|done]. simpl. intros Hexec.
    destruct (effect_afterAck _ _ _ (step_effect _ _ _ Hstep))
      as (Hm1 & fs1 & Hs1 & Hfs1).
    destruct (IH _ _ Hexec) as (Hm2 & fs2 & Hs2 & Hfs2).
    rewrite Hm1 in Hm2, Hfs2. split; [done|].
    exists (fs1 ++ fs2). rewrite Hs2, Hs1, app_assoc. split; [done|].
    by apply Forall_app.
Qed.

Lemma init_accepted a tie c c1 :
  init X a tie c = Some (true, c1) ->
  closed c = false ->
  me c1 = me c
  ∧ goroutines c1 = goroutines c
  ∧ sent c1 = sent c ++ ackFrame ::
      (if decide (me c = graphqlwsMessageExchanger) then [keepAliveFrame] else []).
Proof.
  intros Hinit Hc.
  assert (Hwrites : forall c2,
    me c2 = me c -> goroutines c2 = goroutines c -> sent c2 = sent c ->
    closed c2 = false ->
    let c3 := write X {| payload := ""; id := ""; t := keepAliveMessageType |}
                (write X {| payload := ""; id := ""; t := connectionAckMessageType |} c2) in
    me c3 = me c ∧ goroutines c3 = goroutines c
    ∧ sent c3 = sent c ++ ackFrame ::
        (if decide (me c = graphqlwsMessageExchanger) then [keepAliveFrame] else [])).
  { intros c2 Hm Hg Hs Hc2. simpl.
    rewrite !write_me, !write_goroutines, !write_sent.
    split; [done|]. split; [done|].
    unfold wrote. rewrite write_me, write_closed, Hc2, Hm, Hs.
    destruct (me c); simpl; by rewrite <- app_assoc. }
  unfold init in Hinit.
  destruct (if decide (InitTimeout (config c) ≠ 0%Z) then _ else _) as [r|];
    [|done].
  simpl in Hinit. injection Hinit as Hinit.
  destruct r as [m|err].
  - destruct (t m); try (repeat case_match; done).
    destruct (0 <? String.length (payload m))%nat.
    + destruct (jsonDecodeInit X (payload m)) as [p|]; [|done].
      destruct (InitFunc _) as [f|]; simpl in Hinit.
      * destruct (f _ _); [|done]. injection Hinit as <-. by apply Hwrites.
      * injection Hinit as <-. by apply Hwrites.
    + destruct (InitFunc _) as [f|]; simpl in Hinit.
      * destruct (f _ _); [|done]. injection Hinit as <-. by apply Hwrites.
      * injection Hinit as <-. by apply Hwrites.
  - repeat case_match; done.
Qed.

Lemma runStart_fields c c' :
  runStart X c = Some c' ->
  me c' = me c ∧ goroutines c' = goroutines c ∧ sent c' = sent c.
Proof.
  unfold runStart. intros Hrun.
  repeat case_match; simplify_option_eq; try done.
  all: repeat case_match; simplify_eq; done.
Qed.

Lemma Do_serving cfg proto ctx0 envH clock a tie c :
  Do X cfg proto ctx0 envH clock a tie = Serving c ->
  goroutines c = []
  ∧ sent c = ackFrame ::
      (if decide (me c = graphqlwsMessageExchanger) then [keepAliveFrame] else [])
  ∧ (me c = graphqlwsMessageExchanger
     <-> proto = graphqlwsSubprotocol ∨ proto = "").
Proof.
  unfold Do. intros HDo.
  destruct (bool_decide (proto = graphqlwsSubprotocol) || bool_decide (proto = ""))
    eqn:Hlegacy.
  - destruct (init X _ _ _) as [[[] c1]|] eqn:Hinit; try done.
    destruct (runStart X c1) as [c2|] eqn:Hrun; [|done]. injection HDo as <-.
    apply init_accepted in Hinit as (Hm1 & Hg1 & Hs1); [|done].
    apply runStart_fields in Hrun as (Hm2 & Hg2 & Hs2).
    rewrite Hm2, Hg2, Hs2, Hm1, Hg1, Hs1. simpl.
    split; [done|]. split; [done|]. split; [|done]. intros _.
    apply orb_true_iff in Hlegacy as [H|H]; apply bool_decide_eq_true in H; auto.
  - destruct (bool_decide (proto = graphqltransportwsSubprotocol)); [|done].
    destruct (init X _ _ _) as [[[] c1]|] eqn:Hinit; try done.
    destruct (runStart X c1) as [c2|] eqn:Hrun; [|done]. injection HDo as <-.
    apply init_accepted in Hinit as (Hm1 & Hg1 & Hs1); [|done].
    apply runStart_fields in Hrun as (Hm2 & Hg2 & Hs2).
    rewrite Hm2, Hg2, Hs2, Hm1, Hg1, Hs1. simpl.
    split; [done|]. split; [done|]. split; [done|]. intros Hp.
    apply orb_false_iff in Hlegacy as [H1 H2].
    apply bool_decide_eq_false in H1, H2. tauto.
Qed.

(** C2: when [init] has accepted the handshake, the frames sent so far are
    connection_ack and, on a legacy connection only, one keep_alive right
    after it; whatever happens once [run] is entered, these stay the first
    frames, no second connection_ack is sent, and a modern connection is
    never sent a keep_alive. *)
Theorem connection_ack_once cfg proto ex ctx0 envH clock a tie c1 :
  init X a tie (newConnection X cfg proto ex ctx0 envH clock) = Some (true, c1) ->
  let hello :=
    ackFrame :: (if decide (ex = graphqlwsMessageExchanger)
                 then [keepAliveFrame] else []) in
  sent c1 = hello
  ∧ forall c es c',
      runStart X c1 = Some c ->
      exec X c es = Some c' ->
      exists rest,
        sent c' = hello ++ rest
        ∧ Forall (fun f => kindOf f ≠ Some connectionAckMessageType) rest
        ∧ (ex = graphqltransportwsMessageExchanger ->
           Forall (fun f => kindOf f ≠ Some keepAliveMessageType) rest).
Proof.
  intros Hinit hello.
  apply init_accepted in Hinit as (Hm1 & _ & Hs1); [|done]. simpl in Hm1, Hs1.
  split; [done|]. intros c es c' Hrun Hexec.
  apply runStart_fields in Hrun as (Hm2 & _ & Hs2).
  destruct (exec_afterAck _ _ _ Hexec) as (_ & rest & Hs' & Hrest).
  rewrite Hm2, Hm1 in Hrest.
  exists rest. rewrite Hs', Hs2, Hs1. split; [done|]. split.
  - eapply Forall_impl; [exact Hrest|]. by intros f [Hf _].
  - intros Hmodern. eapply Forall_impl; [exact Hrest|]. intros f [_ Hf]. auto.
Qed.

(** *** Frames of one subscription *)

Lemma isComplete_ofSub i f : isComplete i f = true -> ofSub i f = true.
Proof.
  destruct f as [m|]; [|done]. unfold isComplete, ofSub.
  intros [Hi Hk%bool_decide_eq_true]%andb_true_iff.
  by rewrite Hi, Hk.
Qed.

Lemma not_ofSub_isComplete i f : ofSub i f = false -> isComplete i f = false.
Proof.
  intros Hf. destruct (isComplete i f) eqn:Hc; [|done].
  apply isComplete_ofSub in Hc. congruence.
Qed.

Lemma ofSub_other i j f : ofSub i f = true -> j ≠ i -> ofSub j f = false.
Proof.
  destruct f as [m|]; [|done]. unfold ofSub.
  intros [Hi%bool_decide_eq_true _]%andb_true_iff Hj.
  rewrite bool_decide_eq_false_2; [done|congruence].
Qed.

Lemma control_quiet ex f i : control ex f = true -> ofSub i f = false.
Proof.
  destruct f as [m|]; [|done]. unfold control, ofSub.
  intros Hc. rewrite (bool_decide_eq_false_2 (t m ∈ _)); [by rewrite andb_false_r|].
  rewrite !elem_of_cons, elem_of_nil. intros [H|[H|[H|[]]]]; by rewrite H in Hc.
Qed.

Lemma sealed_quiet i fs : Forall (fun f => isComplete i f = false) fs -> sealed i fs.
Proof.
  induction 1 as [|f fs Hf _ IH]; simpl; [done|]. split; [congruence|done].
Qed.

Lemma sealed_app_quiet i fs gs :
  sealed i fs -> Forall (fun f => ofSub i f = false) gs -> sealed i (fs ++ gs).
Proof.
  intros Hfs Hgs. induction fs as [|f fs IH]; simpl.
  - apply sealed_quiet. eapply Forall_impl; [exact Hgs|].
    apply not_ofSub_isComplete.
  - destruct Hfs as [Hf Hfs]. split; [|by apply IH].
    intros Hc. apply Forall_app. auto.
Qed.

Lemma sealed_app_open i fs gs :
  Forall (fun f => isComplete i f = false) fs -> sealed i gs -> sealed i (fs ++ gs).
Proof.
  induction 1 as [|f fs Hf _ IH]; simpl; [done|]. intros Hgs.
  split; [congruence|by apply IH].
Qed.


(** *** The bookkeeping is kept by every event *)

Lemma tidy_evolve used used' c c' fs :
  tidy used c ->
  used ⊆ used' ->
  (forall k g', goroutines c' !! k = Some g' ->
     exists g, goroutines c !! k = Some g ∧ subId g' = subId g
       ∧ (subPhase g' = Streaming -> subPhase g = Streaming)) ->
  sent c' = sent c ++ fs ->
  (forall j, j ∉ used' -> Forall (fun f => ofSub j f = false) fs) ->
  (forall k g', goroutines c' !! k = Some g' -> subPhase g' = Streaming ->
     Forall (fun f => isComplete (subId g') f = false) fs) ->
  (forall j, sealed j (sent c ++ fs)) ->
  tidy used' c'.
Proof.
  intros [Hids Hnodup Hfresh Hopen Hsealed] Hsub Hgs Hs Hfs Hopen' Hsealed'.
  split.
  - intros k g' Hk. destruct (Hgs _ _ Hk) as (g & Hg & Hid & _).
    rewrite Hid. apply Hsub. eauto.
  - intros k k' g1 g2 Hk Hk' Heq.
    destruct (Hgs _ _ Hk) as (h1 & Hh1 & Hid1 & _).
    destruct (Hgs _ _ Hk') as (h2 & Hh2 & Hid2 & _).
    apply (Hnodup _ _ _ _ Hh1 Hh2). congruence.
  - intros j Hj. rewrite Hs. apply Forall_app. split; [|auto].
    apply Hfresh. intros Hin. apply Hj, Hsub, Hin.
  - intros k g' Hk Hph. rewrite Hs. apply Forall_app. split; [|eauto].
    destruct (Hgs _ _ Hk) as (g & Hg & Hid & Hmono).
    rewrite Hid. eauto.
  - intros j. rewrite Hs. apply Hsealed'.
Qed.

Lemma evolve_same (gs : list (task X)) k g' :
  gs !! k = Some g' ->
  exists g, gs !! k = Some g ∧ subId g' = subId g
    ∧ (subPhase g' = Streaming -> subPhase g = Streaming).
Proof. intros Hk. by exists g'. Qed.

Lemma evolve_insert (gs : list (task X)) n g g' k h :
  gs !! n = Some g ->
  subId g' = subId g ->
  subPhase g' ≠ Streaming ->
  <[n := g']> gs !! k = Some h ->
  k ≠ n ∧ gs !! k = Some h ∨ k = n ∧ h = g'.
Proof.
  intros Hg Hid Hph Hk. destruct (decide (k = n)) as [->|Hne].
  - right. split; [done|].
    rewrite list_lookup_insert_eq in Hk by (by eapply lookup_lt_Some).
    congruence.
  - left. split; [done|]. by rewrite list_lookup_insert_ne in Hk.
Qed.

Lemma effect_tidy used c c' e :
  tidy used c ->
  effect c c' e ->
  (forall i, startId e = Some i -> i ∉ used) ->
  tidy (match startId e with Some i => i :: used | None => used end) c'.
Proof.
  intros Ht Heff Hnew. pose proof Ht as [Hids Hnodup Hfresh Hopen Hsealed].
  destruct Heff as [He (_ & _ & Hg & fs & Hs & Hfs)
                   |i fs He _ Hg Hs Hfs
                   |i g He _ Hg Hid Hph Hs
                   |n g fs He _ Hn Hph Hg Hs Hfs
                   |n g g' fs He _ Hn Hph Hg Hid Hph' Hs Hfs
                   |n g g' He _ Hn Hg Hid Hph' Hs]; rewrite He.
  - (* control frames *)
    assert (Hq : forall j, Forall (fun f => ofSub j f = false) fs).
    { intros j. eapply Forall_impl; [exact Hfs|]. intros f. apply control_quiet. }
    eapply (tidy_evolve used used c c' fs); try done.
    + rewrite Hg. apply evolve_same.
    + intros k g' _ _. eapply Forall_impl; [apply Hq|].
      intros f. apply not_ofSub_isComplete.
    + intros j. by apply sealed_app_quiet.
  - (* a rejected start *)
    specialize (Hnew _ He).
    assert (Hq : forall j, j ≠ i -> Forall (fun f => ofSub j f = false) fs).
    { intros j Hj. destruct Hfs as [->|[p ->]]; [constructor|].
      repeat constructor; unfold ofSub; simpl;
        rewrite bool_decide_eq_false_2; done. }
    eapply (tidy_evolve used (i :: used) c c' fs); try done.
    + intros x Hx. apply elem_of_cons. by right.
    + rewrite Hg. apply evolve_same.
    + intros j Hj. apply Hq. intros ->. apply Hj, elem_of_cons. by left.
    + intros k g' Hk _. rewrite Hg in Hk.
      eapply Forall_impl; [apply (Hq (subId g'))|].
      * intros Heq. apply Hnew. rewrite <- Heq. by eapply Hids.
      * intros f. apply not_ofSub_isComplete.
    + intros j. destruct (decide (j = i)) as [->|Hj].
      * apply sealed_app_open.
        { eapply Forall_impl; [by apply Hfresh|].
          intros f. apply not_ofSub_isComplete. }
        destruct Hfs as [->|[p ->]]; [done|]. cbn [sealed].
        split; [|by split]. intros Hc. by rewrite isComplete_other in Hc.
      * apply sealed_app_quiet; auto.
  - (* an accepted start *)
    specialize (Hnew _ He). split.
    + intros k h. rewrite Hg. intros [Hk|[_ Hk]]%lookup_app_Some.
      * apply elem_of_cons. right. eauto.
      * apply list_lookup_singleton_Some in Hk as [_ <-].
        apply elem_of_cons. by left.
    + intros k k' h h'. rewrite Hg.
      intros [Hk|[Hlen Hk]]%lookup_app_Some [Hk'|[Hlen' Hk']]%lookup_app_Some Heq.
      * eauto.
      * apply list_lookup_singleton_Some in Hk' as [_ <-].
        exfalso. apply Hnew. rewrite <- Hid, <- Heq. eauto.
      * apply list_lookup_singleton_Some in Hk as [_ <-].
        exfalso. apply Hnew. rewrite <- Hid, Heq. eauto.
      * apply list_lookup_singleton_Some in Hk as [Hk _].
        apply list_lookup_singleton_Some in Hk' as [Hk' _]. lia.
    + intros j Hj. rewrite Hs. apply Hfresh.
      intros Hin. apply Hj, elem_of_cons. by right.
    + intros k h. rewrite Hg, Hs. intros [Hk|[_ Hk]]%lookup_app_Some Hstr.
      * eauto.
      * apply list_lookup_singleton_Some in Hk as [_ <-]. rewrite Hid.
        eapply Forall_impl; [by apply Hfresh|].
        intros f. apply not_ofSub_isComplete.
    + intros j. by rewrite Hs.
  - (* a payload delivered *)
    assert (Hq : forall j, j ≠ subId g -> Forall (fun f => ofSub j f = false) fs).
    { intros j Hj. eapply Forall_impl; [exact Hfs|].
      intros f [Hf _]. by eapply ofSub_other. }
    assert (Hnc : forall j, Forall (fun f => isComplete j f = false) fs).
    { intros j. destruct (decide (j = subId g)) as [->|Hj].
      - eapply Forall_impl; [exact Hfs|]. by intros f [_ Hf].
      - eapply Forall_impl; [by apply Hq|]. intros f. apply not_ofSub_isComplete. }
    eapply (tidy_evolve used used c c' fs); try done.
    + rewrite Hg. apply evolve_same.
    + intros j Hj. apply Hq. intros ->. by eapply Hj, Hids.
    + intros j. destruct (decide (j = subId g)) as [->|Hj].
      * apply sealed_app_open; [by eapply Hopen|]. by apply sealed_quiet.
      * apply sealed_app_quiet; auto.
  - (* the terminal frame *)
    assert (Hq : forall j, j ≠ subId g -> Forall (fun f => ofSub j f = false) fs).
    { intros j Hj. destruct Hfs as [->|(f & -> & Hf)]; [constructor|].
      apply Forall_singleton. by eapply ofSub_other. }
    eapply (tidy_evolve used used c c' fs); try done.
    + intros k h Hk. rewrite Hg in Hk.
      destruct (evolve_insert _ _ _ _ _ _ Hn Hid Hph' Hk) as [[_ Hold]|[-> ->]].
      * by apply evolve_same.
      * exists g. by split.
    + intros j Hj. apply Hq. intros ->. by eapply Hj, Hids.
    + intros k h Hk Hstr. rewrite Hg in Hk.
      destruct (evolve_insert _ _ _ _ _ _ Hn Hid Hph' Hk) as [[Hne Hold]|[-> ->]];
        [|done].
      eapply Forall_impl; [apply Hq|].
      * intros Heq. apply Hne. by eapply Hnodup.
      * intros f. apply not_ofSub_isComplete.
    + intros j. destruct (decide (j = subId g)) as [->|Hj].
      * apply sealed_app_open; [by eapply Hopen|].
        destruct Hfs as [->|(f & -> & Hf)]; [done|]. cbn [sealed]. by split.
      * apply sealed_app_quiet; auto.
  - (* unregistration, drain *)
    eapply (tidy_evolve used used c c' []); try done.
    + intros k h Hk. rewrite Hg in Hk.
      destruct (evolve_insert _ _ _ _ _ _ Hn Hid Hph' Hk) as [[_ Hold]|[-> ->]].
      * by apply evolve_same.
      * exists g. by split.
    + by rewrite app_nil_r.
    + intros j. by rewrite app_nil_r.
Qed.


Lemma serving_tidy cfg proto ctx0 envH clock a tie c :
  Do X cfg proto ctx0 envH clock a tie = Serving c -> tidy [] c.
Proof.
  intros HDo. destruct (Do_serving _ _ _ _ _ _ _ _ HDo) as (Hg & Hs & _).
  assert (Hq : forall i, Forall (fun f => ofSub i f = false) (sent c)).
  { intros i. rewrite Hs. destruct (decide _); repeat constructor;
      unfold ofSub; simpl; by rewrite andb_false_r. }
  split; rewrite ?Hg; try done.
  intros i. apply sealed_quiet. eapply Forall_impl; [apply Hq|].
  intros f. apply not_ofSub_isComplete.
Qed.




(** *** The registry on connections without reused ids *)

Lemma close_active code reason c : active (close X code reason c) = active c.
Proof. unfold close. by destruct (closed c). Qed.

Lemma init_active a tie c b c1 :
  init X a tie c = Some (b, c1) -> active c1 = active c.
Proof.
  unfold init. intros Hinit.
  destruct (if decide (InitTimeout (config c) ≠ 0%Z) then _ else _) as [r|];
    [|done].
  simpl in Hinit. injection Hinit as Hinit.
  assert (Hleave : forall code reason format args c0,
    active c0 = active c ->
    active (close X code reason (sendConnectionError X format args c0)) = active c).
  { intros. unfold sendConnectionError. by rewrite close_active, write_active. }
  destruct r as [m|err].
  - destruct (t m);
      try (injection Hinit as <- <-; by rewrite ?Hleave, ?close_active).
    destruct (0 <? String.length (payload m))%nat.
    + destruct (jsonDecodeInit X (payload m)) as [p|];
        [|by injection Hinit as <- <-].
      destruct (InitFunc _) as [f|]; simpl in Hinit.
      * destruct (f _ _); injection Hinit as <- <-;
          by rewrite ?Hleave, ?write_active.
      * injection Hinit as <- <-. by rewrite !write_active.
    + destruct (InitFunc _) as [f|]; simpl in Hinit.
      * destruct (f _ _); injection Hinit as <- <-;
          by rewrite ?Hleave, ?write_active.
      * injection Hinit as <- <-. by rewrite !write_active.
  - destruct (decide (err = errReadTimeout));
      [injection Hinit as <- <-; by rewrite close_active|].
    destruct (decide (err = errInvalidMsg)); injection Hinit as <- <-;
      by rewrite ?Hleave, ?close_active.
Qed.

Lemma runStart_active c c' : runStart X c = Some c' -> active c' = active c.
Proof.
  unfold runStart. intros Hrun.
  repeat case_match; simplify_option_eq; try done.
  all: repeat case_match; simplify_eq; done.
Qed.

Lemma serving_active cfg proto ctx0 envH clock a tie c :
  Do X cfg proto ctx0 envH clock a tie = Serving c -> active c = ∅.
Proof.
  unfold Do. intros HDo.
  destruct (if _ || _ then _ else _) as [ex|]; [|done].
  destruct (init X _ _ _) as [[[] c1]|] eqn:Hinit; try done.
  destruct (runStart X c1) as [c2|] eqn:Hrun; [|done]. injection HDo as <-.
  by rewrite (runStart_active _ _ Hrun), (init_active _ _ _ _ _ Hinit).
Qed.

Lemma controlled_kept c c' : controlled c c' -> registryEffect c c'.
Proof.
  intros (_ & Ha & Hg & _). apply registry_kept; [done|].
  unfold entries. by rewrite Hg.
Qed.

Lemma entries_setTask c n g g' :
  goroutines c !! n = Some g ->
  entry g' = entry g ->
  entries (setTask X n g' c) = entries c.
Proof.
  intros Hg He. unfold entries, setTask. simpl.
  rewrite list_fmap_insert, He. apply list_insert_id.
  by rewrite list_lookup_fmap, Hg.
Qed.

Lemma step_registry c e c' : step X c e = Some c' -> registryEffect c c'.
Proof.
  destruct e as [m|err| | | | |d|h| |n x|n|n|n err]; simpl; intros Hstep.
  - destruct (reading c); [|done]. destruct (closed c) eqn:Hc; [done|].
    simpl in Hstep. injection Hstep as <-.
    destruct (decide (t m = startMessageType)) as [Hm|Hm];
      [|by apply controlled_kept, dispatch_controlled].
    unfold dispatch, subscribe. rewrite Hm.
    destruct (jsonDecodeStart X (payload m)) as [params|].
    + destruct (Subscribe X _ _ _ _) as [err|].
      * apply registry_kept; unfold entries, cancel, complete, sendError; simpl;
          by rewrite ?write_active, ?write_goroutines.
      * eapply registry_added; cycle 1; [simpl; reflexivity|done|done].
    + apply registry_kept; unfold entries, complete, sendError;
        by rewrite ?write_active, ?write_goroutines.
  - destruct (reading c); [|done]. injection Hstep as <-.
    apply controlled_kept, readFailed_controlled.
  - destruct (keepAliveTicker c); [|done]. injection Hstep as <-.
    apply registry_kept; unfold entries; by rewrite ?write_active, ?write_goroutines.
  - destruct (keepAliveTicker c && ctxDone _ _); [|done]. injection Hstep as <-.
    by apply registry_kept.
  - destruct (pingPongTicker c); [|done]. injection Hstep as <-.
    apply registry_kept; unfold entries; by rewrite ?write_active, ?write_goroutines.
  - destruct (pingPongTicker c && ctxDone _ _); [|done]. injection Hstep as <-.
    by apply registry_kept.
  - destruct (0 <=? d)%Z; [|done]. injection Hstep as <-. by apply registry_kept.
  - destruct (h <? envCancels c)%nat; [|done]. injection Hstep as <-.
    by apply registry_kept.
  - destruct (watching c && ctxDone _ _); [|done]. injection Hstep as <-.
    apply controlled_kept, closeOnCancel_controlled.
  - destruct (goroutines c !! n) as [g|] eqn:Hg; [|done]. simpl in Hstep.
    unfold receive in Hstep.
    destruct (subPhase g) eqn:Hph, x as [p|]; try done.
    + destruct (chanClosed g); [done|]. injection Hstep as <-.
      unfold deliver. destruct (jsonMarshal X p);
        apply registry_kept; unfold entries, sendResponse, sendError;
        by rewrite ?write_active, ?write_goroutines.
    + injection Hstep as <-.
      destruct (finish_fields g c) as (_ & _ & Hfa & Hfg & _).
      apply registry_kept; [done|].
      rewrite (entries_setTask _ n g); unfold entries, entry, live; simpl;
        by rewrite ?Hfg, ?Hph.
    + destruct (chanClosed g); [done|]. injection Hstep as <-.
      by apply registry_kept.
    + injection Hstep as <-. apply registry_kept; [done|].
      rewrite (entries_setTask _ n g); unfold entry, live; simpl;
        by rewrite ?Hph.
  - destruct (goroutines c !! n) as [g|] eqn:Hg; [|done]. simpl in Hstep.
    destruct (bool_decide (subPhase g = Streaming)) eqn:Hph; [|done].
    apply bool_decide_eq_true in Hph.
    destruct (ctxDone _ _); [|done]. injection Hstep as <-.
    destruct (finish_fields g c) as (_ & _ & Hfa & Hfg & _).
    apply registry_kept; [done|].
    rewrite (entries_setTask _ n g); unfold entries, entry, live; simpl;
      by rewrite ?Hfg, ?Hph.
  - destruct (goroutines c !! n) as [g|] eqn:Hg; [|done]. simpl in Hstep.
    destruct (bool_decide (subPhase g = Completing)) eqn:Hph; [|done].
    injection Hstep as <-.
    by eapply (registry_removed _ _ n g (setPhase X Draining (chanClosed g) g)).
  - destruct (goroutines c !! n) as [g|] eqn:Hg; [|done]. simpl in Hstep.
    injection Hstep as <-. by apply registry_kept.
Qed.

Lemma entries_lookup c k i h b :
  entries c !! k = Some (i, h, b) <->
  exists g, goroutines c !! k = Some g ∧ subId g = i ∧ subCancel g = h ∧ live g = b.
Proof.
  unfold entries. rewrite list_lookup_fmap. split.
  - destruct (goroutines c !! k) as [g|]; [|done]. intros [= <- <- <-]. eauto.
  - intros (g & -> & <- & <- & <-). done.
Qed.

Lemma registered_step used c c' :
  tidy used c' ->
  registered c ->
  registryEffect c c' ->
  registered c'.
Proof.
  intros Ht Hreg [Ha He|g Ha Hg Hlive|n g g' Hn Hg Hid Hdead Ha]; intros i h.
  - rewrite Ha, He. apply Hreg.
  - rewrite Ha. unfold entries. rewrite Hg, fmap_app, elem_of_app. simpl.
    rewrite list_elem_of_singleton.
    destruct (decide (i = subId g)) as [->|Hne].
    + rewrite lookup_insert_eq. split.
      * intros [= <-]. right. unfold entry. by rewrite Hlive.
      * intros [Hold|[= <-]]; [|done]. exfalso.
        apply list_elem_of_lookup in Hold as [k Hk].
        apply entries_lookup in Hk as (g0 & Hk & Hid0 & _).
        assert (Hlt : k < length (goroutines c)) by (by eapply lookup_lt_Some).
        assert (k = length (goroutines c)); [|lia].
        eapply (tidy_nodup _ _ Ht k _ g0 g); [| |done].
        -- rewrite Hg. by apply lookup_app_l_Some.
        -- rewrite Hg, lookup_app_r, Nat.sub_diag; done.
    + rewrite lookup_insert_ne by done. rewrite (Hreg i h). split; [by left|].
      intros [Hold|[= Hi _ _]]; [done|]. by destruct Hne.
  - rewrite Ha. assert (Hlen : n < length (goroutines c)) by (by eapply lookup_lt_Some).
    destruct (decide (i = subId g)) as [->|Hne].
    + rewrite lookup_delete_eq. split; [done|]. intros Hin. exfalso.
      apply list_elem_of_lookup in Hin as [k Hk].
      apply entries_lookup in Hk as (g0 & Hk & Hid0 & _ & Hlive0).
      assert (k = n) as ->.
      { eapply (tidy_nodup _ _ Ht k n g0 g'); [done| |congruence].
        rewrite Hg. by apply list_lookup_insert_eq. }
      rewrite Hg, list_lookup_insert_eq in Hk by done. congruence.
    + rewrite lookup_delete_ne by done. rewrite (Hreg i h).
      rewrite !list_elem_of_lookup. split; intros [k Hk]; exists k.
      * apply entries_lookup in Hk as (g0 & Hk & Hid0 & Hc0 & Hl0).
        apply entries_lookup. exists g0. rewrite Hg.
        rewrite list_lookup_insert_ne; [done|]. intros <-. congruence.
      * apply entries_lookup in Hk as (g0 & Hk & Hid0 & Hc0 & Hl0).
        apply entries_lookup. exists g0. rewrite Hg in Hk.
        rewrite list_lookup_insert_ne in Hk; [done|].
        intros <-. rewrite list_lookup_insert_eq in Hk by done. congruence.
Qed.

Lemma exec_registered es : forall used c c',
  tidy used c ->
  registered c ->
  exec X c es = Some c' ->
  NoDup (starts es) ->
  (forall i, i ∈ starts es -> i ∉ used) ->
  registered c'.
Proof.
  induction es as [|e es IH]; intros used c c' Ht Hreg; simpl.
  - by intros [= <-] _ _.
  - destruct (step X c e) as [c1|] eqn:Hstep; [|done]. simpl.
    intros Hexec Hnd Hnew. unfold starts in Hnd, Hnew. simpl in Hnd, Hnew.
    pose proof (effect_tidy used c c1 e Ht (step_effect _ _ _ Hstep)) as Ht1.
    pose proof (step_registry _ _ _ Hstep) as Hr1.
    destruct (startId e) as [i|] eqn:He.
    + apply NoDup_cons in Hnd as [Hi Hnd].
      assert (Ht1' : tidy (i :: used) c1).
      { apply Ht1. intros j [= <-]. apply Hnew, elem_of_cons. by left. }
      eapply (IH (i :: used)); [exact Ht1'| |exact Hexec|exact Hnd|].
      * by eapply registered_step.
      * intros j Hj [->|Hin]%elem_of_cons; [done|].
        eapply Hnew; [|exact Hin]. apply elem_of_cons. by right.
    + assert (Ht1' : tidy used c1) by (by apply Ht1).
      eapply (IH used); [exact Ht1'| |exact Hexec|exact Hnd|exact Hnew].
      by eapply registered_step.
Qed.

(** On a connection whose start messages carry pairwise distinct ids, the
    registry holds, at every moment, exactly the cancel functions of the
    goroutines that have not unregistered, each under its id.  (With a
    reused id this fails: see the run of [Demo.reuse] below.) *)
Lemma registry_without_reuse cfg proto ctx0 envH clock a tie c es c' i h :
  Do X cfg proto ctx0 envH clock a tie = Serving c ->
  exec X c es = Some c' ->
  NoDup (starts es) ->
  active c' !! i = Some h
  <-> exists k g, goroutines c' !! k = Some g ∧ subId g = i ∧ subCancel g = h
        ∧ (subPhase g = Streaming ∨ subPhase g = Completing).
Proof.
  intros HDo Hexec Hnd.
  assert (Hreg : registered c').
  { eapply (exec_registered es []); [by eapply serving_tidy| |exact Hexec|exact Hnd|].
    - destruct (Do_serving _ _ _ _ _ _ _ _ HDo) as (Hg & _).
      intros j h'. unfold entries. rewrite Hg, (serving_active _ _ _ _ _ _ _ _ HDo).
      rewrite lookup_empty. simpl. rewrite elem_of_nil. done.
    - intros j _. apply not_elem_of_nil. }
  rewrite (Hreg i h), list_elem_of_lookup. split.
  - intros [k Hk]. apply entries_lookup in Hk as (g & Hk & Hid & Hc & Hl).
    exists k, g. repeat (split; [done|]). unfold live in Hl.
    apply orb_true_iff in Hl as [Hl|Hl]; apply bool_decide_eq_true in Hl; auto.
  - intros (k & g & Hk & Hid & Hc & Hl). exists k. apply entries_lookup.
    exists g. repeat (split; [done|]). unfold live.
    destruct Hl as [-> | ->]; done.
Qed.

End Handlers.


(** ** Invariants of a connection *)

Section Coverage.

Context {X : Externals}.
Implicit Types (c : wsConnection X) (g : task X) (m msg : message).

(** *** [write] and [close] as record updates *)

Lemma write_nf msg c :
  write X msg c
  = setReported X (reports msg c) (setSocket X (sent c ++ wrote msg c) (closed c) c).
Proof.
  unfold write, Send, handlePossibleError, reports, wrote.
  destruct (wireType (me c) (t msg)), (closed c) eqn:Hc,
    (ErrorFunc (config c)) eqn:He; simpl; rewrite ?He.
  all: destruct c; simpl in *; subst; by rewrite ?app_nil_r.
Qed.

Lemma close_nf code reason c :
  close X code reason c
  = setCancelled X (map_img (active c) ∪ cancelled c)
      (setSocket X (sent c ++ closing code reason c) true c).
Proof.
  unfold close, closing. destruct (closed c) eqn:Hc; [|done].
  destruct c; simpl in *; subst. by rewrite app_nil_r.
Qed.

(** Unfolds a handler down to record updates. *)
Ltac nf :=
  unfold dispatch, subscribe, deliver, finish, unregister, readFailed,
    closeOnCancel, runExit, cancel, setTask, sendResponse, complete, sendError,
    sendConnectionError, handlePossibleError;
  cbv zeta; repeat case_match;
  rewrite ?write_nf, ?close_nf.

Ltac follows_field :=
  simpl;
  lazymatch goal with
  | |- _ ⊆ _ => set_solver
  | |- _ <= _ => lia
  | |- _ = true -> _ ++ _ = _ =>
      intros Hclosed; unfold wrote, closing; simpl; rewrite ?Hclosed; simpl;
      repeat case_match; rewrite ?app_nil_r; done
  | |- _ => done
  end.

Ltac follows_crunch := nf; split; follows_field.

Lemma follows_refl c : follows c c.
Proof. by split. Qed.

Lemma follows_trans c1 c2 c3 : follows c1 c2 -> follows c2 c3 -> follows c1 c3.
Proof.
  intros [] []. split; try congruence; auto.
  - set_solver.
  - intros Hc. rewrite follows_sent1 by auto. auto.
  - lia.
Qed.

Lemma follows_write msg c : follows c (write X msg c).
Proof. follows_crunch. Qed.

Lemma follows_close code reason c : follows c (close X code reason c).
Proof. follows_crunch. Qed.

Lemma follows_runExit c : follows c (runExit X c).
Proof. follows_crunch. Qed.

Lemma follows_subscribe ctx0 m c : follows c (subscribe X ctx0 m c).
Proof. follows_crunch. Qed.

Lemma follows_dispatch m c : follows c (dispatch X m c).
Proof.
  destruct (decide (t m = startMessageType)) as [Hm|Hm].
  - unfold dispatch. rewrite Hm. apply follows_subscribe.
  - unfold dispatch. destruct (t m); try done.
    all: try (eapply follows_trans; [|apply follows_runExit]).
    all: follows_crunch.
Qed.

Lemma follows_readFailed err c : follows c (readFailed X err c).
Proof.
  unfold readFailed. eapply follows_trans; [|apply follows_runExit].
  follows_crunch.
Qed.

Lemma follows_closeOnCancel c : follows c (closeOnCancel X c).
Proof. follows_crunch. Qed.

Lemma follows_deliver g p c : follows c (deliver X g p c).
Proof. follows_crunch. Qed.

Lemma follows_finish g c : follows c (finish X g c).
Proof. follows_crunch. Qed.

Lemma follows_unregister g c : follows c (unregister X g c).
Proof. follows_crunch. Qed.

Lemma follows_setTask n g c0 c : follows c0 c -> follows c0 (setTask X n g c).
Proof. intros H. eapply follows_trans; [exact H|]. by split. Qed.

Lemma step_follows c e c' : step X c e = Some c' -> follows c c'.
Proof.
  destruct e as [m|err| | | | |d|h| |n x|n|n|n err]; simpl; intros Hstep.
  - destruct (reading c && negb (closed c)); [|done]. injection Hstep as <-.
    apply follows_dispatch.
  - destruct (reading c); [|done]. injection Hstep as <-. apply follows_readFailed.
  - destruct (keepAliveTicker c); [|done]. injection Hstep as <-. apply follows_write.
  - destruct (keepAliveTicker c && ctxDone _ _); [|done]. injection Hstep as <-.
    by split.
  - destruct (pingPongTicker c); [|done]. injection Hstep as <-. apply follows_write.
  - destruct (pingPongTicker c && ctxDone _ _); [|done]. injection Hstep as <-.
    by split.
  - destruct (0 <=? d)%Z; [|done]. injection Hstep as <-. by split.
  - destruct (h <? envCancels c)%nat; [|done]. injection Hstep as <-.
    follows_crunch.
  - destruct (watching c && ctxDone _ _); [|done]. injection Hstep as <-.
    apply follows_closeOnCancel.
  - destruct (goroutines c !! n) as [g|]; [|done]. simpl in Hstep.
    unfold receive in Hstep.
    destruct (subPhase g), x as [p|]; try done.
    + destruct (chanClosed g); [done|]. injection Hstep as <-. apply follows_deliver.
    + injection Hstep as <-. apply follows_setTask, follows_finish.
    + destruct (chanClosed g); [done|]. injection Hstep as <-. apply follows_refl.
    + injection Hstep as <-. apply follows_setTask, follows_refl.
  - destruct (goroutines c !! n) as [g|]; [|done]. simpl in Hstep.
    destruct (_ && _); [|done]. injection Hstep as <-.
    apply follows_setTask, follows_finish.
  - destruct (goroutines c !! n) as [g|]; [|done]. simpl in Hstep.
    destruct (bool_decide _); [|done]. injection Hstep as <-.
    apply follows_setTask, follows_unregister.
  - destruct (goroutines c !! n) as [g|]; [|done]. simpl in Hstep.
    injection Hstep as <-. by split.
Qed.

Lemma exec_follows es : forall c c', exec X c es = Some c' -> follows c c'.
Proof.
  induction es as [|e es IH]; intros c c'; simpl.
  - intros [= <-]. apply follows_refl.
  - destruct (step X c e) as [c1|] eqn:Hstep; [|done]. simpl. intros Hexec.
    eapply follows_trans; [by eapply step_follows|by apply IH].
Qed.

(** *** The state when the loop is entered *)

Lemma init_accepted_world a tie c c1 :
  init X a tie c = Some (true, c1) ->
  closed c = false ->
  config c1 = config c ∧ subprotocol c1 = subprotocol c
  ∧ envCancels c1 = envCancels c ∧ nextCancel c1 = nextCancel c
  ∧ closed c1 = false ∧ reading c1 = reading c ∧ watching c1 = watching c
  ∧ cancelled c1 = cancelled c ∧ active c1 = active c
  ∧ goroutines c1 = goroutines c ∧ heap c1 = heap c ∧ invoked c1 = invoked c
  ∧ keepAliveTicker c1 = keepAliveTicker c ∧ pingPongTicker c1 = pingPongTicker c
  ∧ readDeadline c1 = readDeadline c.
Proof.
  intros Hinit Hc.
  assert (Hwrites : forall c2 m1 m2,
    config c2 = config c -> subprotocol c2 = subprotocol c ->
    envCancels c2 = envCancels c -> nextCancel c2 = nextCancel c ->
    closed c2 = false -> reading c2 = reading c -> watching c2 = watching c ->
    cancelled c2 = cancelled c -> active c2 = active c ->
    goroutines c2 = goroutines c -> heap c2 = heap c -> invoked c2 = invoked c ->
    keepAliveTicker c2 = keepAliveTicker c -> pingPongTicker c2 = pingPongTicker c ->
    readDeadline c2 = readDeadline c ->
    let c3 := write X m2 (write X m1 c2) in
    config c3 = config c ∧ subprotocol c3 = subprotocol c
    ∧ envCancels c3 = envCancels c ∧ nextCancel c3 = nextCancel c
    ∧ closed c3 = false ∧ reading c3 = reading c ∧ watching c3 = watching c
    ∧ cancelled c3 = cancelled c ∧ active c3 = active c
    ∧ goroutines c3 = goroutines c ∧ heap c3 = heap c ∧ invoked c3 = invoked c
    ∧ keepAliveTicker c3 = keepAliveTicker c ∧ pingPongTicker c3 = pingPongTicker c
    ∧ readDeadline c3 = readDeadline c).
  { intros. subst c3. rewrite !write_nf. simpl. by repeat split. }
  unfold init in Hinit.
  destruct (if decide (InitTimeout (config c) ≠ 0%Z) then _ else _) as [r|];
    [|done].
  simpl in Hinit. injection Hinit as Hinit.
  destruct r as [m|err].
  - destruct (t m); try (repeat case_match; done).
    destruct (0 <? String.length (payload m))%nat.
    + destruct (jsonDecodeInit X (payload m)) as [p|]; [|done].
      destruct (InitFunc _) as [f|]; simpl in Hinit.
      * destruct (f _ _); [|done]. injection Hinit as <-. by apply Hwrites.
      * injection Hinit as <-. by apply Hwrites.
    + destruct (InitFunc _) as [f|]; simpl in Hinit.
      * destruct (f _ _); [|done]. injection Hinit as <-. by apply Hwrites.
      * injection Hinit as <-. by apply Hwrites.
  - repeat case_match; done.
Qed.

Lemma serving_entered cfg proto ctx0 envH clock a tie c :
  Do X cfg proto ctx0 envH clock a tie = Serving c -> entered cfg proto envH c.
Proof.
  unfold Do. intros HDo.
  destruct (if _ || _ then _ else _) as [ex|]; [|done].
  destruct (init X _ _ _) as [[[] c1]|] eqn:Hinit; try done.
  destruct (runStart X c1) as [c2|] eqn:Hrun; [|done]. injection HDo as <-.
  apply init_accepted_world in Hinit; [|done]. simpl in Hinit.
  destruct Hinit as (Hcfg & Hsub & Henv & Hnext & Hcl & Hrd & Hwt & Hcan & Hact
                     & Hgs & Hheap & Hinv & Hka & Hpp & _).
  unfold runStart in Hrun. cbn in Hrun. rewrite Hcfg, Hsub in Hrun.
  destruct (_ && bool_decide (KeepAlivePingInterval cfg ≠ 0%Z)) eqn:Hlegacy.
  - destruct (Z.ltb_spec 0 (KeepAlivePingInterval cfg)); [|done]. cbn in Hrun.
    rewrite Hsub, Hcfg in Hrun.
    apply andb_true_iff in Hlegacy as [Hp _].
    apply orb_true_iff in Hp.
    assert (Hnot : bool_decide (proto = graphqltransportwsSubprotocol) = false).
    { apply bool_decide_eq_false. intros ->.
      destruct Hp as [Hp|Hp]; by apply bool_decide_eq_true in Hp. }
    rewrite Hnot in Hrun. cbn in Hrun. injection Hrun as <-.
    split; cbn; try done; try congruence.
    + split; [|done]. intros _. split; [|done].
      destruct Hp as [Hp|Hp]; apply bool_decide_eq_true in Hp; auto.
    + rewrite Hpp. split; [done|]. intros [-> _]. by apply bool_decide_eq_false in Hnot.
  - assert (Hnoka : ~ ((proto = "" ∨ proto = graphqlwsSubprotocol)
                       ∧ (0 < KeepAlivePingInterval cfg)%Z)).
    { intros [Hp Hpos]. apply andb_false_iff in Hlegacy as [Hl|Hl].
      - apply orb_false_iff in Hl as [H1 H2].
        apply bool_decide_eq_false in H1, H2. tauto.
      - apply bool_decide_eq_false in Hl. lia. }
    cbn in Hrun. rewrite Hsub, Hcfg in Hrun.
    destruct (_ && bool_decide (PingPongInterval cfg ≠ 0%Z)) eqn:Hmodern.
    + destruct (Z.ltb_spec 0 (PingPongInterval cfg)); [|done]. injection Hrun as <-.
      apply andb_true_iff in Hmodern as [Hp%bool_decide_eq_true _].
      split; cbn; try done; try congruence.
      rewrite Hka. split; [done|]. tauto.
    + injection Hrun as <-.
      split; cbn; try done; try congruence.
      * rewrite Hka. split; [done|]. tauto.
      * rewrite Hpp. split; [done|]. intros [Hp Hpos].
        apply andb_false_iff in Hmodern as [Hl|Hl].
        -- by apply bool_decide_eq_false in Hl.
        -- apply bool_decide_eq_false in Hl. lia.
Qed.

(** *** Goroutines, handles and slots *)

Ltac kept := apply tasks_kept; nf; reflexivity.

Lemma step_tasks c e c' : step X c e = Some c' -> taskEffect c c'.
Proof.
  destruct e as [m|err| | | | |d|h| |n x|n|n|n err]; simpl; intros Hstep.
  - destruct (reading c && negb (closed c)); [|done]. injection Hstep as <-.
    unfold dispatch. destruct (t m); try kept.
    unfold subscribe. destruct (jsonDecodeStart X (payload m)) as [params|]; [|kept].
    cbv zeta. destruct (Subscribe X _ _ _ _).
    + eapply (tasks_refused _ _ params); nf; reflexivity.
    + eapply (tasks_spawned _ _ (id m) params); reflexivity.
  - destruct (reading c); [|done]. injection Hstep as <-. kept.
  - destruct (keepAliveTicker c); [|done]. injection Hstep as <-. kept.
  - destruct (keepAliveTicker c && ctxDone _ _); [|done]. injection Hstep as <-. kept.
  - destruct (pingPongTicker c); [|done]. injection Hstep as <-. kept.
  - destruct (pingPongTicker c && ctxDone _ _); [|done]. injection Hstep as <-. kept.
  - destruct (0 <=? d)%Z; [|done]. injection Hstep as <-. kept.
  - destruct (h <? envCancels c)%nat; [|done]. injection Hstep as <-. kept.
  - destruct (watching c && ctxDone _ _); [|done]. injection Hstep as <-. kept.
  - destruct (goroutines c !! n) as [g|] eqn:Hg; [|done]. simpl in Hstep.
    unfold receive in Hstep.
    destruct (subPhase g), x as [p|]; try done.
    + destruct (chanClosed g); [done|]. injection Hstep as <-. kept.
    + injection Hstep as <-.
      eapply (tasks_moved _ _ n g Completing true); [done|nf; reflexivity..].
    + destruct (chanClosed g); [done|]. injection Hstep as <-. kept.
    + injection Hstep as <-.
      eapply (tasks_moved _ _ n g Exited true); [done|nf; reflexivity..].
  - destruct (goroutines c !! n) as [g|] eqn:Hg; [|done]. simpl in Hstep.
    destruct (_ && _); [|done]. injection Hstep as <-.
    eapply (tasks_moved _ _ n g Completing (chanClosed g)); [done|nf; reflexivity..].
  - destruct (goroutines c !! n) as [g|] eqn:Hg; [|done]. simpl in Hstep.
    destruct (bool_decide _); [|done]. injection Hstep as <-.
    eapply (tasks_moved _ _ n g Draining (chanClosed g)); [done|nf; reflexivity..].
  - destruct (goroutines c !! n) as [g|] eqn:Hg; [|done]. simpl in Hstep.
    injection Hstep as <-. by eapply (tasks_deposited _ _ n g err).
Qed.

Lemma lookup_moved (gs : list (task X)) n g ph cl k h :
  gs !! n = Some g ->
  <[n := setPhase X ph cl g]> gs !! k = Some h ->
  exists h0, gs !! k = Some h0 ∧ subId h = subId h0 ∧ subCtx h = subCtx h0
    ∧ svcCtx h = svcCtx h0 ∧ subCancel h = subCancel h0
    ∧ (k ≠ n -> h = h0) ∧ (k = n -> h = setPhase X ph cl g).
Proof.
  intros Hn Hk. destruct (decide (k = n)) as [->|Hne].
  - rewrite list_lookup_insert_eq in Hk by (by eapply lookup_lt_Some).
    injection Hk as <-. exists g. by repeat split.
  - rewrite list_lookup_insert_ne in Hk by done. exists h. by repeat split.
Qed.

Lemma orderly_step c c' :
  orderly c -> follows c c' -> taskEffect c c' -> orderly c'.
Proof.
  intros [Hnext Hheap Hctx Hcan Hdis Hinv] Hf Ht.
  destruct Hf as [_ Hfctx _ _ Hfenv Hfip _ _ _ _ _ _ _ _ _].
  destruct Ht as [Hg Hh Hi Hn|params Hg Hh Hi Hn|i params Hg Hh Hi Hn
                 |n g ph cl Hk Hg Hh Hi Hn|n g err Hk Hg Hh Hi Hn].
  - split; rewrite ?Hg, ?Hh, ?Hi, ?Hn, ?Hfctx, ?Hfenv, ?Hfip; done.
  - split; rewrite ?Hg, ?Hh, ?Hn, ?Hfctx, ?Hfenv, ?Hfip; try done.
    + lia.
    + intros k g Hk. specialize (Hcan _ _ Hk). lia.
    + intros ctx1 p. rewrite Hi, elem_of_app, list_elem_of_singleton.
      intros [Hold|[= -> ->]].
      * destruct (Hinv _ _ Hold) as (h & -> & Hb). exists h. split; [done|lia].
      * eexists. split; [done|lia].
  - split; rewrite ?Hg, ?Hh, ?Hn, ?Hfctx, ?Hfenv, ?Hfip.
    + lia.
    + rewrite !length_app. simpl. lia.
    + intros k g [Hk|[Hlen Hk]]%lookup_app_Some; [by apply Hctx|].
      apply list_lookup_singleton_Some in Hk as [Hk <-]. simpl.
      split; [done|]. f_equal. lia.
    + intros k g [Hk|[Hlen Hk]]%lookup_app_Some.
      * specialize (Hcan _ _ Hk). lia.
      * apply list_lookup_singleton_Some in Hk as [_ <-]. simpl. lia.
    + intros k k' g g'
        [Hk|[Hlen Hk]]%lookup_app_Some [Hk'|[Hlen' Hk']]%lookup_app_Some Heq.
      * eauto.
      * apply list_lookup_singleton_Some in Hk' as [_ <-]. simpl in Heq.
        specialize (Hcan _ _ Hk). lia.
      * apply list_lookup_singleton_Some in Hk as [_ <-]. simpl in Heq.
        specialize (Hcan _ _ Hk'). lia.
      * apply list_lookup_singleton_Some in Hk as [Hk _].
        apply list_lookup_singleton_Some in Hk' as [Hk' _]. lia.
    + intros ctx1 p. rewrite Hi, elem_of_app, list_elem_of_singleton.
      intros [Hold|[= -> ->]].
      * destruct (Hinv _ _ Hold) as (h & -> & Hb). exists h. split; [done|lia].
      * eexists. split; [done|lia].
  - split; rewrite ?Hh, ?Hi, ?Hn, ?Hfctx, ?Hfenv, ?Hfip; try done.
    + rewrite Hg, length_insert. done.
    + intros k h Hkh. rewrite Hg in Hkh.
      destruct (lookup_moved _ _ _ _ _ _ _ Hk Hkh) as (h0 & H0 & _ & -> & -> & -> & _).
      by apply Hctx.
    + intros k h Hkh. rewrite Hg in Hkh.
      destruct (lookup_moved _ _ _ _ _ _ _ Hk Hkh) as (h0 & H0 & _ & _ & _ & -> & _).
      by eapply Hcan.
    + intros k k' h h' Hkh Hkh' Heq. rewrite Hg in Hkh, Hkh'.
      destruct (lookup_moved _ _ _ _ _ _ _ Hk Hkh) as (h0 & H0 & _ & _ & _ & E0 & _).
      destruct (lookup_moved _ _ _ _ _ _ _ Hk Hkh') as (h1 & H1 & _ & _ & _ & E1 & _).
      eapply Hdis; [exact H0|exact H1|congruence].
  - split; rewrite ?Hg, ?Hi, ?Hn, ?Hfctx, ?Hfenv, ?Hfip; try done.
    by rewrite Hh, AddSubscriptionError_length.
Qed.

Lemma entered_orderly cfg proto envH c : entered cfg proto envH c -> orderly c.
Proof.
  intros []. split; rewrite ?entered_goroutines0, ?entered_heap0,
    ?entered_invoked0, ?entered_nextCancel0, ?entered_envCancels0; try done.
  - lia.
  - intros ctx1 p Hin. by apply elem_of_nil in Hin.
Qed.

(** A property kept by every event holds after every schedule. *)
Lemma exec_ind (I : wsConnection X -> Prop) :
  (forall c e c', I c -> step X c e = Some c' -> I c') ->
  forall es c c', I c -> exec X c es = Some c' -> I c'.
Proof.
  intros Hstep. induction es as [|e es IH]; intros c c' HI; simpl.
  - by intros [= <-].
  - destruct (step X c e) as [c1|] eqn:He; [|done]. simpl. eauto.
Qed.

Lemma exec_orderly es c c' : orderly c -> exec X c es = Some c' -> orderly c'.
Proof.
  apply exec_ind. intros c0 e c1 Ho Hstep.
  eapply orderly_step; [exact Ho|by eapply step_follows|by eapply step_tasks].
Qed.

(** *** What Subscribe is given, what the goroutine holds *)

(** X1: the context handed to Subscribe is the connection's context under
    a fresh cancel function and nothing more: the init payload that
    [subscribe] attaches and the error slot that the goroutine installs
    are added after the call, so the service sees neither; the goroutine's
    own context carries the init payload of the connection. *)
Theorem subscribe_context cfg proto ctx0 envH clock a tie c es c' :
  Do X cfg proto ctx0 envH clock a tie = Serving c ->
  exec X c es = Some c' ->
  (forall ctx1 params,
     (ctx1, params) ∈ invoked c' ->
     exists h, ctx1 = WithCancel (ctx c) h
       ∧ envH < h
       ∧ GetInitPayload ctx1 = GetInitPayload (ctx c)
       ∧ getSubscriptionErrorStruct ctx1 = getSubscriptionErrorStruct (ctx c))
  ∧ (forall k g p,
       goroutines c' !! k = Some g ->
       initPayload c = Some p ->
       svcCtx g = WithCancel (ctx c) (subCancel g)
       ∧ GetInitPayload (subCtx g) = Some p).
Proof.
  intros HDo Hexec.
  pose proof (serving_entered _ _ _ _ _ _ _ _ HDo) as He.
  pose proof (exec_orderly _ _ _ (entered_orderly _ _ _ _ He) Hexec) as Ho.
  pose proof (exec_follows _ _ _ Hexec) as Hf.
  destruct Hf as [_ Hctx _ _ Henv Hip _ _ _ _ _ _ _ _ _].
  rewrite (entered_envCancels _ _ _ _ He) in Henv. split.
  - intros ctx1 params Hin.
    destruct (orderly_invoked _ Ho _ _ Hin) as (h & -> & Hh).
    exists h. rewrite <- Hctx. repeat split; try done. lia.
  - intros k g p Hk Hp. destruct (orderly_ctx _ Ho _ _ Hk) as [Hsvc Hsub].
    rewrite <- Hctx. split; [done|]. rewrite Hsub, Hip, Hp. done.
Qed.

(** X2: a run never changes what the handshake fixed: the options, the
    exchanger, the connection context and the init payload are, after any
    schedule, those with which the loop was entered. *)
Theorem handshake_is_final cfg proto ctx0 envH clock a tie c es c' :
  Do X cfg proto ctx0 envH clock a tie = Serving c ->
  exec X c es = Some c' ->
  config c' = cfg ∧ me c' = me c ∧ subprotocol c' = proto
  ∧ ctx c' = ctx c ∧ initPayload c' = initPayload c.
Proof.
  intros HDo Hexec.
  pose proof (serving_entered _ _ _ _ _ _ _ _ HDo) as He.
  destruct (exec_follows _ _ _ Hexec) as [Hcfg Hctx Hme Hsub _ Hip _ _ _ _ _ _ _ _ _].
  rewrite Hcfg, Hsub, (entered_config _ _ _ _ He), (entered_subprotocol _ _ _ _ He).
  done.
Qed.

(** *** Deposited errors *)

Lemma blank_step c c' :
  getSubscriptionErrorStruct (ctx c) = None ->
  orderly c -> blank c -> taskEffect c c' -> blank c'.
Proof.
  intros Hnone Ho Hb [Hg Hh Hi Hn|params Hg Hh Hi Hn|i params Hg Hh Hi Hn
                     |n g ph cl Hk Hg Hh Hi Hn|n g err Hk Hg Hh Hi Hn];
    unfold blank; rewrite Hh; try done.
  - apply Forall_app. split; [done|]. by apply Forall_singleton.
  - destruct (orderly_ctx _ Ho _ _ Hk) as [-> _].
    unfold AddSubscriptionError. simpl. by rewrite Hnone.
Qed.

(** X3: when the connection's context carries no error slot, nothing the
    service deposits with AddSubscriptionError on the context it was
    given reaches the slot of a goroutine: whatever the schedule, every
    goroutine collects the empty list, so the frame of its deferred
    function is complete, never error. *)
Theorem deposits_are_lost cfg proto ctx0 envH clock a tie c es c' k g :
  Do X cfg proto ctx0 envH clock a tie = Serving c ->
  getSubscriptionErrorStruct (ctx c) = None ->
  exec X c es = Some c' ->
  goroutines c' !! k = Some g ->
  getSubscriptionError (subCtx g) (heap c') = []
  ∧ terminalFrame g c'
    = Text {| payload := ""; id := subId g; t := completeMessageType |}.
Proof.
  intros HDo Hnone Hexec Hk.
  pose proof (serving_entered _ _ _ _ _ _ _ _ HDo) as He.
  assert (Hinv : orderly c' ∧ blank c' ∧ getSubscriptionErrorStruct (ctx c') = None).
  { eapply (exec_ind (fun c0 => orderly c0 ∧ blank c0
                         ∧ getSubscriptionErrorStruct (ctx c0) = None));
      [| |exact Hexec].
    - intros c0 e c1 (Ho & Hb & Hn) Hstep.
      pose proof (step_follows _ _ _ Hstep) as Hf.
      pose proof (step_tasks _ _ _ Hstep) as Ht.
      split; [by eapply orderly_step|]. split; [by eapply blank_step|].
      by rewrite (follows_ctx _ _ Hf).
    - split; [by eapply entered_orderly|]. split; [|done].
      unfold blank. by rewrite (entered_heap _ _ _ _ He). }
  destruct Hinv as (Ho & Hb & _).
  assert (Hempty : getSubscriptionError (subCtx g) (heap c') = []).
  { destruct (orderly_ctx _ Ho _ _ Hk) as [_ ->].
    unfold getSubscriptionError. simpl.
    destruct (heap c' !! k) as [errs|] eqn:Hslot; [|done]. simpl.
    eapply Forall_lookup_1 in Hb; [|exact Hslot]. done. }
  split; [done|]. unfold terminalFrame. by rewrite Hempty.
Qed.

(** *** Leaving the loop *)

Lemma runExit_leaves c parent h :
  runCtx c = WithCancel parent h ->
  closed (runExit X c) = true ∧ h ∈ cancelled (runExit X c)
  ∧ reading (runExit X c) = false.
Proof.
  intros Hrun. unfold runExit. rewrite Hrun. unfold cancel.
  rewrite close_nf. simpl. split; [done|]. split; [set_solver|done].
Qed.

Lemma step_reading c e c' :
  step X c e = Some c' ->
  reading c' = reading c
  ∨ exists c1, c' = runExit X c1 ∧ runCtx c1 = runCtx c.
Proof.
  destruct e as [m|err| | | | |d|h| |n x|n|n|n err]; simpl; intros Hstep.
  - destruct (reading c && negb (closed c)); [|done]. injection Hstep as <-.
    unfold dispatch. destruct (t m).
    all: try (right; eexists; split; [reflexivity|]; nf; reflexivity).
    all: left; nf; reflexivity.
  - destruct (reading c); [|done]. injection Hstep as <-.
    right. eexists. split; [reflexivity|]. nf; reflexivity.
  - destruct (keepAliveTicker c); [|done]. injection Hstep as <-. left. nf. done.
  - destruct (keepAliveTicker c && ctxDone _ _); [|done]. injection Hstep as <-.
    by left.
  - destruct (pingPongTicker c); [|done]. injection Hstep as <-. left. nf. done.
  - destruct (pingPongTicker c && ctxDone _ _); [|done]. injection Hstep as <-.
    by left.
  - destruct (0 <=? d)%Z; [|done]. injection Hstep as <-. by left.
  - destruct (h <? envCancels c)%nat; [|done]. injection Hstep as <-. by left.
  - destruct (watching c && ctxDone _ _); [|done]. injection Hstep as <-.
    left. nf; reflexivity.
  - destruct (goroutines c !! n) as [g|]; [|done]. simpl in Hstep.
    unfold receive in Hstep.
    destruct (subPhase g), x as [p|]; try done.
    + destruct (chanClosed g); [done|]. injection Hstep as <-. left. nf; reflexivity.
    + injection Hstep as <-. left. nf; reflexivity.
    + destruct (chanClosed g); [done|]. injection Hstep as <-. by left.
    + injection Hstep as <-. by left.
  - destruct (goroutines c !! n) as [g|]; [|done]. simpl in Hstep.
    destruct (_ && _); [|done]. injection Hstep as <-. left. nf; reflexivity.
  - destruct (goroutines c !! n) as [g|]; [|done]. simpl in Hstep.
    destruct (bool_decide _); [|done]. injection Hstep as <-. left. nf; reflexivity.
  - destruct (goroutines c !! n) as [g|]; [|done]. simpl in Hstep.
    injection Hstep as <-. by left.
Qed.

Lemma exits_step c e c' : exits c -> step X c e = Some c' -> exits c'.
Proof.
  intros (parent & h & Hrun & Hleft) Hstep.
  pose proof (step_follows _ _ _ Hstep) as Hf.
  exists parent, h. rewrite (follows_runCtx _ _ Hf). split; [done|].
  intros Hoff. destruct (step_reading _ _ _ Hstep) as [Hsame|(c1 & -> & Hc1)].
  - rewrite Hsame in Hoff. destruct (Hleft Hoff) as [Hcl Hh].
    split; [by apply (follows_closed _ _ Hf)|].
    by apply (follows_cancelled _ _ Hf).
  - rewrite Hrun in Hc1. by destruct (runExit_leaves _ _ _ Hc1) as (? & ? & _).
Qed.

(** X4: the read loop is not left without the connection being torn down:
    after any schedule, if the loop of [run] has returned then the socket
    is closed and the context of the timers and of the close-on-cancel
    watcher is done; and the loop, once left, is not entered again. *)
Theorem loop_exit_closes cfg proto ctx0 envH clock a tie c es c' es' c'' :
  Do X cfg proto ctx0 envH clock a tie = Serving c ->
  exec X c es = Some c' ->
  reading c' = false ->
  exec X c' es' = Some c'' ->
  closed c' = true
  ∧ ctxDone (cancelled c') (runCtx c') = true
  ∧ reading c'' = false.
Proof.
  intros HDo Hexec Hoff Hexec'.
  pose proof (serving_entered _ _ _ _ _ _ _ _ HDo) as He.
  assert (Hex : exits c').
  { eapply (exec_ind exits); [apply exits_step| |exact Hexec].
    exists (ctx c), envH. split; [apply He|].
    rewrite (entered_reading _ _ _ _ He). done. }
  destruct Hex as (parent & h & Hrun & Hleft). destruct (Hleft Hoff) as [Hcl Hh].
  split; [done|]. split.
  - rewrite Hrun. simpl. by rewrite bool_decide_eq_true_2.
  - pose proof (exec_follows _ _ _ Hexec') as Hf.
    destruct (reading c'') eqn:Hr; [|done].
    by rewrite (follows_reading _ _ Hf Hr) in Hoff.
Qed.

(** *** The close frame *)

Lemma wellClosed_same c c' :
  sent c' = sent c -> closed c' = closed c -> wellClosed c -> wellClosed c'.
Proof. unfold wellClosed. by intros -> ->. Qed.

Lemma wellClosed_write msg c : wellClosed c -> wellClosed (write X msg c).
Proof.
  rewrite write_nf. unfold wellClosed, wrote. simpl.
  destruct (closed c).
  - destruct (wireType _ _); by rewrite app_nil_r.
  - intros Hc. destruct (wireType _ _); [|by rewrite app_nil_r].
    apply Forall_app. split; [done|]. by apply Forall_singleton.
Qed.

Lemma wellClosed_close code reason c :
  wellClosed c -> wellClosed (close X code reason c).
Proof.
  rewrite close_nf. unfold wellClosed, closing. simpl.
  destruct (closed c); [by rewrite app_nil_r|]. intros Hc. eauto.
Qed.

(** Walks down a handler for [wellClosed]. *)
Ltac sound :=
  cbv beta;
  lazymatch goal with
  | H : wellClosed ?c |- wellClosed ?c => exact H
  | |- wellClosed (write _ _ _) => apply wellClosed_write; sound
  | |- wellClosed (close _ _ _ _) => apply wellClosed_close; sound
  | |- wellClosed (match ?x with _ => _ end _) => destruct x; sound
  | |- wellClosed (match ?x with _ => _ end) => destruct x; sound
  | |- wellClosed (let '(_, _) := ?x in _) => destruct x; sound
  | |- wellClosed (?f _ _ _ _ ?c) =>
      apply (wellClosed_same c); [reflexivity|reflexivity|sound]
  | |- wellClosed (?f _ _ _ ?c) =>
      apply (wellClosed_same c); [reflexivity|reflexivity|sound]
  | |- wellClosed (?f _ _ ?c) =>
      apply (wellClosed_same c); [reflexivity|reflexivity|sound]
  | |- wellClosed (?f _ ?c) =>
      apply (wellClosed_same c); [reflexivity|reflexivity|sound]
  end.

Ltac handlers :=
  unfold dispatch, subscribe, deliver, finish, unregister, readFailed,
    closeOnCancel, runExit, cancel, setTask, sendResponse, complete, sendError,
    sendConnectionError, handlePossibleError, withSubscriptionErrorContext;
  cbv zeta.

Lemma wellClosed_step c e c' : wellClosed c -> step X c e = Some c' -> wellClosed c'.
Proof.
  intros Hw.
  destruct e as [m|err| | | | |d|h| |n x|n|n|n err]; simpl; intros Hstep.
  - destruct (reading c && negb (closed c)); [|done]. injection Hstep as <-.
    handlers. sound.
  - destruct (reading c); [|done]. injection Hstep as <-. handlers. sound.
  - destruct (keepAliveTicker c); [|done]. injection Hstep as <-. sound.
  - destruct (keepAliveTicker c && ctxDone _ _); [|done]. injection Hstep as <-. sound.
  - destruct (pingPongTicker c); [|done]. injection Hstep as <-. sound.
  - destruct (pingPongTicker c && ctxDone _ _); [|done]. injection Hstep as <-. sound.
  - destruct (0 <=? d)%Z; [|done]. injection Hstep as <-. sound.
  - destruct (h <? envCancels c)%nat; [|done]. injection Hstep as <-. handlers. sound.
  - destruct (watching c && ctxDone _ _); [|done]. injection Hstep as <-.
    handlers. sound.
  - destruct (goroutines c !! n) as [g|]; [|done]. simpl in Hstep.
    unfold receive in Hstep.
    destruct (subPhase g), x as [p|]; try done.
    + destruct (chanClosed g); [done|]. injection Hstep as <-. handlers. sound.
    + injection Hstep as <-. handlers. sound.
    + destruct (chanClosed g); [done|]. by injection Hstep as <-.
    + injection Hstep as <-. handlers. sound.
  - destruct (goroutines c !! n) as [g|]; [|done]. simpl in Hstep.
    destruct (_ && _); [|done]. injection Hstep as <-. handlers. sound.
  - destruct (goroutines c !! n) as [g|]; [|done]. simpl in Hstep.
    destruct (bool_decide _); [|done]. injection Hstep as <-. handlers. sound.
  - destruct (goroutines c !! n) as [g|]; [|done]. simpl in Hstep.
    injection Hstep as <-. sound.
Qed.

(** X5: the close frame is the last frame on the socket.  After any
    schedule, a close frame among the frames sent has nothing after it
    and only text frames before it, and the socket is then closed; hence
    at most one close frame is ever written, however many times [close]
    runs. *)
Theorem close_frame_is_last cfg proto ctx0 envH clock a tie c es c'
    pre code reason post :
  Do X cfg proto ctx0 envH clock a tie = Serving c ->
  exec X c es = Some c' ->
  sent c' = pre ++ Close code reason :: post ->
  post = [] ∧ closed c' = true ∧ Forall (fun f => isText f = true) pre.
Proof.
  intros HDo Hexec Hs.
  pose proof (serving_entered _ _ _ _ _ _ _ _ HDo) as He.
  assert (Hw : wellClosed c').
  { eapply (exec_ind wellClosed); [apply wellClosed_step| |exact Hexec].
    unfold wellClosed. rewrite (entered_closed _ _ _ _ He).
    destruct (Do_serving _ _ _ _ _ _ _ _ HDo) as (_ & -> & _).
    destruct (decide _); repeat constructor. }
  unfold wellClosed in Hw. destruct (closed c').
  - destruct Hw as (pre' & code' & reason' & Hs' & Htext).
    rewrite Hs in Hs'.
    destruct post as [|f post _] using rev_ind.
    + apply app_inj_tail in Hs' as [-> _]. done.
    + exfalso. rewrite app_comm_cons, app_assoc in Hs'.
      apply app_inj_tail in Hs' as [<- _].
      apply Forall_app in Htext as [_ Htext].
      by apply Forall_cons in Htext as [? _].
  - exfalso. rewrite Hs in Hw. apply Forall_app in Hw as [_ Hw].
    by apply Forall_cons in Hw as [? _].
Qed.

(** *** Closing cancels the subscriptions *)

Ltac sweep Hsw :=
  nf; unfold swept in *; simpl; intros Hcl si sh Hh; try congruence;
  try (apply lookup_delete_Some in Hh as [_ Hh]);
  first [ pose proof (elem_of_map_img_2 (SA:=gset nat) _ _ _ Hh); set_solver
        | specialize (Hsw Hcl _ _ Hh); set_solver ].

Lemma swept_step c e c' : swept c -> step X c e = Some c' -> swept c'.
Proof.
  intros Hsw.
  destruct e as [m|err| | | | |d|h0| |n x|n|n|n err]; simpl; intros Hstep.
  - destruct (reading c); [|done]. destruct (closed c) eqn:Hc; [done|].
    simpl in Hstep. injection Hstep as <-. sweep Hsw.
  - destruct (reading c); [|done]. injection Hstep as <-. sweep Hsw.
  - destruct (keepAliveTicker c); [|done]. injection Hstep as <-. sweep Hsw.
  - destruct (keepAliveTicker c && ctxDone _ _); [|done]. injection Hstep as <-.
    sweep Hsw.
  - destruct (pingPongTicker c); [|done]. injection Hstep as <-. sweep Hsw.
  - destruct (pingPongTicker c && ctxDone _ _); [|done]. injection Hstep as <-.
    sweep Hsw.
  - destruct (0 <=? d)%Z; [|done]. injection Hstep as <-. sweep Hsw.
  - destruct (h0 <? envCancels c)%nat; [|done]. injection Hstep as <-. sweep Hsw.
  - destruct (watching c && ctxDone _ _); [|done]. injection Hstep as <-. sweep Hsw.
  - destruct (goroutines c !! n) as [g|]; [|done]. simpl in Hstep.
    unfold receive in Hstep.
    destruct (subPhase g), x as [p|]; try done.
    + destruct (chanClosed g); [done|]. injection Hstep as <-. sweep Hsw.
    + injection Hstep as <-. sweep Hsw.
    + destruct (chanClosed g); [done|]. by injection Hstep as <-.
    + injection Hstep as <-. sweep Hsw.
  - destruct (goroutines c !! n) as [g|]; [|done]. simpl in Hstep.
    destruct (_ && _); [|done]. injection Hstep as <-. sweep Hsw.
  - destruct (goroutines c !! n) as [g|]; [|done]. simpl in Hstep.
    destruct (bool_decide _); [|done]. injection Hstep as <-. sweep Hsw.
  - destruct (goroutines c !! n) as [g|]; [|done]. simpl in Hstep.
    injection Hstep as <-. sweep Hsw.
Qed.

(** A goroutine's context is done as soon as its own cancel is invoked. *)
Lemma ctxDone_own c k g (cancelled : gset nat) :
  orderly c ->
  goroutines c !! k = Some g ->
  subCancel g ∈ cancelled ->
  ctxDone cancelled (subCtx g) = true.
Proof.
  intros Ho Hk Hin. destruct (orderly_ctx _ Ho _ _ Hk) as [Hsvc ->].
  rewrite Hsvc. unfold attach. destruct (initPayload c); simpl;
    by rewrite bool_decide_eq_true_2.
Qed.

Lemma serving_swept cfg proto ctx0 envH clock a tie c es c' :
  Do X cfg proto ctx0 envH clock a tie = Serving c ->
  exec X c es = Some c' ->
  swept c' ∧ orderly c'.
Proof.
  intros HDo Hexec. pose proof (serving_entered _ _ _ _ _ _ _ _ HDo) as He.
  split.
  - eapply (exec_ind swept); [apply swept_step| |exact Hexec].
    intros Hcl. by rewrite (entered_closed _ _ _ _ He) in Hcl.
  - eapply exec_orderly; [|exact Hexec]. by eapply entered_orderly.
Qed.

(** X6: when start ids are not reused, no subscription outlives the
    connection: once the socket is closed, the context of every goroutine
    that has not unregistered is cancelled, so one that is still
    streaming can take its [ctx.Done()] branch. *)
Theorem close_cancels_subscriptions cfg proto ctx0 envH clock a tie c es c' k g :
  Do X cfg proto ctx0 envH clock a tie = Serving c ->
  exec X c es = Some c' ->
  NoDup (starts es) ->
  closed c' = true ->
  goroutines c' !! k = Some g ->
  subPhase g = Streaming ∨ subPhase g = Completing ->
  ctxDone (cancelled c') (subCtx g) = true
  ∧ (subPhase g = Streaming -> is_Some (step X c' (Cancelled k))).
Proof.
  intros HDo Hexec Hnd Hcl Hk Hph.
  destruct (serving_swept _ _ _ _ _ _ _ _ _ _ HDo Hexec) as [Hsw Ho].
  assert (Hreg : active c' !! subId g = Some (subCancel g)).
  { apply (registry_without_reuse _ _ _ _ _ _ _ _ _ _ _ _ HDo Hexec Hnd).
    by exists k, g. }
  assert (Hdone : ctxDone (cancelled c') (subCtx g) = true).
  { eapply ctxDone_own; [exact Ho|exact Hk|]. by eapply Hsw. }
  split; [done|]. intros Hs. simpl. rewrite Hk. simpl.
  rewrite Hdone, bool_decide_eq_true_2 by done. by eexists.
Qed.

(** X7: a client's stop, when start ids are not reused.  The stop message
    for a streaming subscription writes nothing and leaves the registry
    alone: it only invokes the cancel function, after which the goroutine
    can take its [ctx.Done()] branch, and that turn writes the terminal
    frame of the subscription. *)
Theorem stop_ends_subscription cfg proto ctx0 envH clock a tie c es c' k g m :
  Do X cfg proto ctx0 envH clock a tie = Serving c ->
  exec X c es = Some c' ->
  NoDup (starts es) ->
  goroutines c' !! k = Some g ->
  subPhase g = Streaming ->
  reading c' = true ->
  closed c' = false ->
  t m = stopMessageType ->
  id m = subId g ->
  exists c1 c2,
    step X c' (Inbound m) = Some c1
    ∧ sent c1 = sent c' ∧ active c1 = active c' ∧ goroutines c1 = goroutines c'
    ∧ cancelled c1 = {[subCancel g]} ∪ cancelled c'
    ∧ step X c1 (Cancelled k) = Some c2
    ∧ sent c2 = sent c' ++ [terminalFrame g c']
    ∧ phaseOf k c2 = Some Completing
    ∧ active c2 = active c'.
Proof.
  intros HDo Hexec Hnd Hk Hph Hrd Hcl Ht Hid.
  destruct (serving_swept _ _ _ _ _ _ _ _ _ _ HDo Hexec) as [_ Ho].
  assert (Hreg : active c' !! id m = Some (subCancel g)).
  { rewrite Hid.
    apply (registry_without_reuse _ _ _ _ _ _ _ _ _ _ _ _ HDo Hexec Hnd).
    exists k, g. by repeat split; [..|left]. }
  set (c1 := cancel X (subCancel g) c').
  exists c1, (setTask X k (setPhase X Completing (chanClosed g) g) (finish X g c1)).
  destruct (finish_fields g c1) as (_ & _ & Hact & Hgs & _).
  split.
  { simpl. rewrite Hrd, Hcl. simpl. unfold dispatch. by rewrite Ht, Hreg. }
  do 4 (split; [done|]). split; [|split; [|split]].
  - simpl. rewrite Hk. simpl.
    rewrite (ctxDone_own c' k g _ Ho Hk) by set_solver.
    by rewrite bool_decide_eq_true_2.
  - unfold setTask. simpl. rewrite finish_sent. simpl. by rewrite Hcl.
  - unfold phaseOf, setTask. simpl. rewrite Hgs. simpl.
    by rewrite list_lookup_insert_eq by (by eapply lookup_lt_Some).
  - unfold setTask. simpl. by rewrite Hact.
Qed.

(** X8: a stop that names no live subscription is ignored.  When start ids
    are not reused and every goroutine started under the id has
    unregistered (or none was ever started), the stop message changes
    nothing at all. *)
Theorem stop_after_end_is_ignored cfg proto ctx0 envH clock a tie c es c' m :
  Do X cfg proto ctx0 envH clock a tie = Serving c ->
  exec X c es = Some c' ->
  NoDup (starts es) ->
  reading c' = true ->
  closed c' = false ->
  t m = stopMessageType ->
  (forall k g, goroutines c' !! k = Some g -> subId g = id m ->
     subPhase g = Draining ∨ subPhase g = Exited) ->
  step X c' (Inbound m) = Some c'.
Proof.
  intros HDo Hexec Hnd Hrd Hcl Ht Hgone.
  simpl. rewrite Hrd, Hcl. simpl. unfold dispatch. rewrite Ht.
  destruct (active c' !! id m) as [h|] eqn:Hreg; [|done].
  apply (registry_without_reuse _ _ _ _ _ _ _ _ _ _ _ _ HDo Hexec Hnd) in Hreg
    as (k & g & Hk & Hid & _ & Hph).
  destruct (Hgone k g Hk Hid) as [Hd|Hd], Hph as [Hp|Hp]; congruence.
Qed.

(** *** Refused and failing subscriptions *)

(** X9: a start that the service refuses.  When [Subscribe] returns an
    error, the server writes an error frame for the message's id carrying
    that error, then a complete frame for the id, and invokes the cancel
    function it had derived; nothing is registered and no goroutine is
    started. *)
Theorem subscribe_error_is_reported c msg params err :
  t msg = startMessageType ->
  jsonDecodeStart X (payload msg) = Some params ->
  Subscribe X (WithCancel (ctx c) (nextCancel c))
    (Query params) (OperationName params) (Variables params) = Some err ->
  reading c = true ->
  closed c = false ->
  exists c',
    step X c (Inbound msg) = Some c'
    ∧ sent c' = sent c ++
        [Text {| payload := jsonMarshalErrors X [toGQLError X err];
                 id := id msg; t := errorMessageType |};
         Text {| payload := ""; id := id msg; t := completeMessageType |}]
    ∧ invoked c' = invoked c ++ [(WithCancel (ctx c) (nextCancel c), params)]
    ∧ cancelled c' = {[nextCancel c]} ∪ cancelled c
    ∧ active c' = active c
    ∧ goroutines c' = goroutines c
    ∧ heap c' = heap c.
Proof.
  intros Hm Hdec Hsub Hr Hc. eexists. split.
  { unfold step, dispatch. rewrite Hr, Hc, Hm. simpl. reflexivity. }
  unfold subscribe. rewrite Hdec. cbv zeta. simpl. rewrite Hsub.
  unfold cancel, complete, sendError. rewrite !write_nf. simpl.
  unfold wrote. simpl. rewrite Hc.
  repeat split. destruct (me c); simpl; by rewrite <- app_assoc.
Qed.

(** X10: a payload that does not encode.  When [json.Marshal] fails on a
    payload, the goroutine writes an error frame for its id and goes on:
    it stays in its loop and in the registry, and nothing is cancelled. *)
Theorem encode_error_keeps_streaming c n g p err :
  goroutines c !! n = Some g ->
  subPhase g = Streaming ->
  chanClosed g = false ->
  jsonMarshal X p = inr err ->
  closed c = false ->
  exists c',
    step X c (Receive n (Some p)) = Some c'
    ∧ sent c' = sent c ++
        [Text {| payload := jsonMarshalErrors X [toGQLError X err];
                 id := subId g; t := errorMessageType |}]
    ∧ goroutines c' = goroutines c
    ∧ active c' = active c
    ∧ cancelled c' = cancelled c
    ∧ heap c' = heap c.
Proof.
  intros Hg Hph Hch Henc Hc. eexists. split.
  { simpl. rewrite Hg. simpl. unfold receive. rewrite Hph, Hch. reflexivity. }
  unfold deliver. rewrite Henc. unfold sendError. rewrite write_nf. simpl.
  unfold wrote. simpl. rewrite Hc. repeat split. by destruct (me c).
Qed.

(** *** The close-on-cancel watcher *)

(** X11: when the context of [run] is done while the socket is open, the
    watcher closes the connection normally: a [connection_error] with the
    close reason of the context if there is one (and the dialect has such
    a frame), then the close frame 1000 "terminated"; every registered
    cancel function is invoked; the watcher does not fire again. *)
Theorem cancelled_context_closes c :
  watching c = true ->
  ctxDone (cancelled c) (runCtx c) = true ->
  closed c = false ->
  exists c',
    step X c CloseOnCancel = Some c'
    ∧ sent c' = sent c
        ++ (if decide (closeReasonForContext (runCtx c) = "") then []
            else wrote {| payload := jsonMarshalError X
                            {| Message := Sprintf X (closeReasonForContext (runCtx c)) [] |};
                          id := ""; t := connectionErrorMessageType |} c)
        ++ [Close websocket.CloseNormalClosure "terminated"]
    ∧ closed c' = true
    ∧ (forall i h, active c !! i = Some h -> h ∈ cancelled c')
    ∧ active c' = active c
    ∧ goroutines c' = goroutines c
    ∧ step X c' CloseOnCancel = None.
Proof.
  intros Hw Hd Hc. eexists. split.
  { simpl. rewrite Hw, Hd. reflexivity. }
  unfold closeOnCancel. cbv zeta.
  destruct (decide (closeReasonForContext (runCtx c) = "")) as [He|He].
  - rewrite close_nf. simpl. unfold closing. rewrite Hc.
    repeat split.
    intros i h Hh. pose proof (elem_of_map_img_2 (SA:=gset nat) _ _ _ Hh).
    set_solver.
  - unfold sendConnectionError. rewrite close_nf, write_nf. simpl.
    unfold closing. simpl. rewrite Hc. rewrite <- app_assoc.
    repeat split.
    intros i h Hh. pose proof (elem_of_map_img_2 (SA:=gset nat) _ _ _ Hh).
    set_solver.
Qed.

(** *** The timers *)

Lemma serving_exits cfg proto ctx0 envH clock a tie c es c' :
  Do X cfg proto ctx0 envH clock a tie = Serving c ->
  exec X c es = Some c' ->
  exits c'.
Proof.
  intros HDo Hexec. pose proof (serving_entered _ _ _ _ _ _ _ _ HDo) as He.
  eapply (exec_ind exits); [apply exits_step| |exact Hexec].
  exists (ctx c), envH. split; [apply He|].
  by rewrite (entered_reading _ _ _ _ He).
Qed.

(** X12: the timers follow the dialect.  At any moment of a connection, a
    keep-alive tick can only be taken on the legacy dialect with a
    positive keep-alive interval, and a ping tick only on the modern
    dialect with a positive ping interval; so the two timers never run on
    the same connection. *)
Theorem timers_follow_dialect cfg proto ctx0 envH clock a tie c es c' :
  Do X cfg proto ctx0 envH clock a tie = Serving c ->
  exec X c es = Some c' ->
  (is_Some (step X c' KeepAliveTick) ->
     (proto = "" ∨ proto = graphqlwsSubprotocol)
     ∧ (0 < KeepAlivePingInterval cfg)%Z)
  ∧ (is_Some (step X c' PingTick) ->
       proto = graphqltransportwsSubprotocol ∧ (0 < PingPongInterval cfg)%Z)
  ∧ ~ (is_Some (step X c' KeepAliveTick) ∧ is_Some (step X c' PingTick)).
Proof.
  intros HDo Hexec. pose proof (serving_entered _ _ _ _ _ _ _ _ HDo) as He.
  pose proof (exec_follows _ _ _ Hexec) as Hf.
  assert (Hka : is_Some (step X c' KeepAliveTick) ->
                (proto = "" ∨ proto = graphqlwsSubprotocol)
                ∧ (0 < KeepAlivePingInterval cfg)%Z).
  { simpl. destruct (keepAliveTicker c') eqn:Hk; [|by intros []]. intros _.
    apply (entered_keepAlive _ _ _ _ He), (follows_keepAlive _ _ Hf), Hk. }
  assert (Hpp : is_Some (step X c' PingTick) ->
                proto = graphqltransportwsSubprotocol
                ∧ (0 < PingPongInterval cfg)%Z).
  { simpl. destruct (pingPongTicker c') eqn:Hk; [|by intros []]. intros _.
    apply (entered_pingPong _ _ _ _ He), (follows_pingPong _ _ Hf), Hk. }
  split; [done|]. split; [done|].
  intros [[[->| ->] _]%Hka [Hp _]%Hpp]; discriminate Hp.
Qed.

(** X13: the timers stop with the loop.  Once the loop of [run] has
    returned, a timer goroutine that is still running can take its
    [ctx.Done()] branch, which stops its ticker and writes nothing; a
    stopped timer never ticks again. *)
Theorem timers_stop_after_exit cfg proto ctx0 envH clock a tie c es c' :
  Do X cfg proto ctx0 envH clock a tie = Serving c ->
  exec X c es = Some c' ->
  reading c' = false ->
  (keepAliveTicker c' = true ->
     exists c1, step X c' KeepAliveStop = Some c1 ∧ sent c1 = sent c'
       ∧ forall es1 c2, exec X c1 es1 = Some c2 -> step X c2 KeepAliveTick = None)
  ∧ (pingPongTicker c' = true ->
       exists c1, step X c' PingStop = Some c1 ∧ sent c1 = sent c'
         ∧ forall es1 c2, exec X c1 es1 = Some c2 -> step X c2 PingTick = None).
Proof.
  intros HDo Hexec Hoff.
  destruct (serving_exits _ _ _ _ _ _ _ _ _ _ HDo Hexec)
    as (parent & h & Hrun & Hleft).
  destruct (Hleft Hoff) as [_ Hh].
  assert (Hdone : ctxDone (cancelled c') (runCtx c') = true).
  { rewrite Hrun. simpl. by rewrite bool_decide_eq_true_2. }
  split; intros Hk; eexists; simpl; rewrite Hk, Hdone; simpl;
    (split; [reflexivity|]); (split; [reflexivity|]); intros es1 c2 Hexec1;
    pose proof (exec_follows _ _ _ Hexec1) as Hf.
  - destruct (keepAliveTicker c2) eqn:Hk2; [|done].
    by apply (follows_keepAlive _ _ Hf) in Hk2.
  - destruct (pingPongTicker c2) eqn:Hk2; [|done].
    by apply (follows_pingPong _ _ Hf) in Hk2.
Qed.

(** *** What [ErrorFunc] is called with *)
















(** *** How [Do] ends before the loop *)

Lemma runStart_panics c :
  runStart X c = None
  <-> ((subprotocol c = "" ∨ subprotocol c = graphqlwsSubprotocol)
       ∧ (KeepAlivePingInterval (config c) < 0)%Z)
      ∨ (subprotocol c = graphqltransportwsSubprotocol
         ∧ (PingPongInterval (config c) < 0)%Z).
Proof.
  unfold runStart, graphqlwsSubprotocol, graphqltransportwsSubprotocol.
  cbv zeta. cbn [subprotocol config setRun setNextCancel].
  destruct (0 <? KeepAlivePingInterval (config c))%Z eqn:Hka,
    (0 <? PingPongInterval (config c))%Z eqn:Hpp;
    repeat case_bool_decide; simpl; repeat case_bool_decide; simpl;
    rewrite ?Hka, ?Hpp;
    first [apply Z.ltb_lt in Hka|apply Z.ltb_ge in Hka];
    first [apply Z.ltb_lt in Hpp|apply Z.ltb_ge in Hpp].
  all: split; [intros ?|intros [[[?|?] ?]|[? ?]]]; try done; try congruence; try lia.
  all: first [left; split; [by auto|lia] | right; split; [by auto|lia]].
Qed.

(** X15: [run] panics before its loop exactly on a negative interval.  When
    the handshake is accepted, [Do] ends in the panic of [time.NewTicker]
    if and only if the interval of the connection's dialect is negative:
    the keep-alive interval on the legacy dialect, the ping interval on
    the modern one.  The interval of the other dialect is not looked
    at. *)
Theorem negative_interval_panics cfg proto ctx0 envH clock a tie :
  (Do X cfg proto ctx0 envH clock a tie = Panicked
   ∨ exists c, Do X cfg proto ctx0 envH clock a tie = Serving c) ->
  Do X cfg proto ctx0 envH clock a tie = Panicked
  <-> ((proto = "" ∨ proto = graphqlwsSubprotocol)
       ∧ (KeepAlivePingInterval cfg < 0)%Z)
      ∨ (proto = graphqltransportwsSubprotocol ∧ (PingPongInterval cfg < 0)%Z).
Proof.
  unfold Do.
  destruct (if _ || _ then _ else _) as [ex|]; [|by intros [|[]]].
  destruct (init X _ _ _) as [[[] c1]|] eqn:Hinit; try by intros [|[]].
  intros _. apply init_accepted_world in Hinit as (Hcfg & Hsub & _); [|done].
  simpl in Hcfg, Hsub. rewrite <- Hcfg, <- Hsub, <- runStart_panics.
  by destruct (runStart X c1).
Qed.

Lemma first_read (timeout : Z) a tie m :
  (if decide (timeout ≠ 0%Z)
   then Some (nextMessageWithTimeout timeout a tie)
   else NextMessage a) = Some (Msg m) ->
  exists d, a = After d (Msg m).
Proof.
  destruct a as [|d r]; simpl; [by destruct (decide _)|].
  intros H. exists d. f_equal. repeat case_match; by simplify_eq.
Qed.

Lemma refusal_close a code reason c :
  sent c = [] ->
  closed c = false ->
  code = websocket.CloseProtocolError ∨ code = websocket.CloseNormalClosure ->
  refusal a (close X code reason c).
Proof.
  intros Hs Hc Hcode. rewrite close_nf. unfold closing. rewrite Hc, Hs.
  apply (refused_closing _ _ [] code reason); simpl; try done. lia.
Qed.

Lemma refusal_error_close a code reason msg c :
  sent c = [] ->
  closed c = false ->
  t msg = connectionErrorMessageType ->
  code = websocket.CloseProtocolError ∨ code = websocket.CloseNormalClosure ->
  refusal a (close X code reason (write X msg c)).
Proof.
  intros Hs Hc Ht Hcode. rewrite close_nf, write_nf. simpl.
  unfold closing, wrote. simpl. rewrite Hc, Hs. simpl.
  destruct (wireType (me c) (t msg)).
  - apply (refused_closing _ _ [Text msg] code reason); simpl; try done.
    apply Forall_singleton. simpl. by rewrite Ht.
  - apply (refused_closing _ _ [] code reason); simpl; try done. lia.
Qed.

Lemma init_refused a tie c c1 :
  init X a tie c = Some (false, c1) ->
  sent c = [] ->
  closed c = false ->
  refusal a c1
  ∧ reading c1 = reading c ∧ goroutines c1 = goroutines c
  ∧ invoked c1 = invoked c ∧ active c1 = active c.
Proof.
  intros Hinit Hs Hc. unfold init in Hinit.
  destruct (if decide _ then _ else _) as [r|] eqn:Hread; [|done].
  simpl in Hinit. injection Hinit as Hinit.
  assert (Hfields : forall code reason c2,
    reading c2 = reading c -> goroutines c2 = goroutines c ->
    invoked c2 = invoked c -> active c2 = active c ->
    reading (close X code reason c2) = reading c
    ∧ goroutines (close X code reason c2) = goroutines c
    ∧ invoked (close X code reason c2) = invoked c
    ∧ active (close X code reason c2) = active c).
  { intros. by rewrite close_nf. }
  destruct r as [m|err].
  - destruct (t m) eqn:Ht.
    all: try (injection Hinit as <-;
              split; [apply refusal_error_close; auto
                     |apply Hfields; unfold sendConnectionError;
                       by rewrite write_nf]).
    + destruct (0 <? String.length (payload m))%nat eqn:Hlen.
      * destruct (jsonDecodeInit X (payload m)) as [p|] eqn:Hdec.
        -- destruct (InitFunc _) as [f|]; simpl in Hinit; [|done].
           destruct (f _ _); [done|]. injection Hinit as <-.
           split; [by apply refusal_error_close; auto|].
           apply Hfields; unfold sendConnectionError; by rewrite write_nf.
        -- injection Hinit as <-. split; [|done].
           destruct (first_read _ _ _ _ Hread) as [d ->].
           apply (refused_silently _ _ d m); try done.
           intros Hp. by rewrite Hp in Hlen.
      * destruct (InitFunc _) as [f|]; simpl in Hinit; [|done].
        destruct (f _ _); [done|]. injection Hinit as <-.
        split; [by apply refusal_error_close; auto|].
        apply Hfields; unfold sendConnectionError; by rewrite write_nf.
    + injection Hinit as <-. split; [by apply refusal_close; auto|].
      by apply Hfields.
  - destruct (decide (err = errReadTimeout)).
    + injection Hinit as <-. split; [by apply refusal_close; auto|].
      by apply Hfields.
    + injection Hinit as <-. destruct (decide (err = errInvalidMsg)).
      * split; [by apply refusal_error_close; auto|].
        apply Hfields; unfold sendConnectionError; by rewrite write_nf.
      * split; [by apply refusal_close; auto|]. by apply Hfields.
Qed.

(** X16: how [Do] ends when [init] refuses the connection.  No
    [connection_ack] was written, the loop of [run] was not entered and no
    subscription exists.  Either the socket was closed, with status 1002
    or 1000, after at most one [connection_error]; or - when the payload
    of [connection_init] does not decode - nothing at all was written and
    the socket was left open. *)
Theorem refused_handshake cfg proto ctx0 envH clock a tie c :
  Do X cfg proto ctx0 envH clock a tie = Refused c ->
  refusal a c
  ∧ Forall (fun f => kindOf f ≠ Some connectionAckMessageType) (sent c)
  ∧ reading c = false
  ∧ goroutines c = []
  ∧ invoked c = []
  ∧ active c = ∅.
Proof.
  unfold Do. intros HDo.
  destruct (if _ || _ then _ else _) as [ex|]; [|done].
  destruct (init X _ _ _) as [[[] c1]|] eqn:Hinit; try done.
  - by destruct (runStart X c1).
  - injection HDo as <-.
    apply init_refused in Hinit as (Href & Hrd & Hgs & Hinv & Hact); try done.
    split; [done|]. split; [|done].
    destruct Href as [d m _ _ _ _ -> _|pre code reason -> _ _ Hpre _];
      [done|].
    apply Forall_app. split; [|by apply Forall_singleton].
    eapply Forall_impl; [exact Hpre|]. simpl. intros f ->. done.
Qed.

End Coverage.


(** ** Concrete runs *)

(** C1: scenario 2 on the code.  The payloads 1, 2, 3 are JSON-encoded to
    [1], [2], [3] and the connection sends three data frames with id 1
    followed by one complete frame with id 1; but [sendResponse] encodes
    the encoded bytes once more, so the data frames carry the JSON strings
    of their base64 forms, not the JSON encodings themselves. *)
Theorem lifecycle_frames :
  jsonMarshal Demo.X <$> [Demo.Int 1; Demo.Int 2; Demo.Int 3]
  = [inl "1"; inl "2"; inl "3"]
  ∧ (sent <$> Demo.after graphqlwsSubprotocol Demo.lifecycle)
    = Some [ackFrame; keepAliveFrame;
            Demo.dataFrame "1" (Demo.quoted "MQ==");
            Demo.dataFrame "1" (Demo.quoted "Mg==");
            Demo.dataFrame "1" (Demo.quoted "Mw==");
            Demo.completeFrame "1"]
  ∧ Demo.quoted "MQ==" ≠ "1".
Proof. split; [|split]; [vm_compute; reflexivity..|discriminate]. Qed.

(** Scenario 3 on the code: one data frame, then complete, the registry
    is empty and the goroutine has left. *)
Example client_stop :
  ((fun c => (sent c, map_to_list (active c), phaseOf 0 c))
     <$> Demo.after graphqlwsSubprotocol Demo.stopped)
  = Some ([ackFrame; keepAliveFrame; Demo.dataFrame "1" (Demo.quoted "MQ==");
           Demo.completeFrame "1"], [], Some Exited).
Proof. vm_compute. reflexivity. Qed.

(** C3: a start that reuses a live id.  The second start overwrites the
    registry entry of the first; when the first goroutine ends it deletes
    the entry under its id, which is now the second goroutine's: the
    registry is empty while goroutine 1 is still in its select loop. *)
Theorem reused_id_leaves_live_goroutine_unregistered :
  ((fun c => (map_to_list (active c), phaseOf 0 c, phaseOf 1 c,
              subId <$> goroutines c !! 1))
     <$> Demo.after graphqlwsSubprotocol Demo.reuse)
  = Some ([], Some Draining, Some Streaming, Some "1").
Proof. vm_compute. reflexivity. Qed.


(** The handshake of the legacy connection and scenario 2 after it. *)
Lemma connection_ack_once_lifecycle :
  sent Demo.greeted = [ackFrame; keepAliveFrame]
  ∧ exists rest,
      sent (Demo.run Demo.lifecycle) = [ackFrame; keepAliveFrame] ++ rest
      ∧ Forall (fun f => kindOf f ≠ Some connectionAckMessageType) rest
      ∧ (graphqlwsMessageExchanger = graphqltransportwsMessageExchanger ->
         Forall (fun f => kindOf f ≠ Some keepAliveMessageType) rest).
Proof.
  destruct (connection_ack_once Demo.options graphqlwsSubprotocol
              graphqlwsMessageExchanger Background 0 0
              (After 0 (Msg Demo.initMsg)) false Demo.greeted) as [Hhello Hrest].
  { vm_compute. reflexivity. }
  split; [exact Hhello|].
  apply (Hrest Demo.legacy Demo.lifecycle); vm_compute; reflexivity.
Defined.


(** A pong on the legacy connection, whose PingPongInterval is 0. *)
Lemma pong_sets_read_deadline_legacy :
  (readDeadline <$> step Demo.X Demo.legacy (Inbound Demo.pongMsg))
  = Some (Some (now Demo.legacy)).
Proof.
  apply (pong_sets_read_deadline Demo.legacy Demo.pongMsg); vm_compute; reflexivity.
Defined.

(** The start of [Demo.junk]. *)
Lemma start_with_invalid_json_junk :
  exists c',
    step Demo.X Demo.legacy (Inbound (Demo.startMsg "1" "not json")) = Some c'
    ∧ sent c' = sent Demo.legacy ++
        [Text {| payload := jsonMarshalErrors Demo.X [{| Message := "invalid json" |}];
                 id := "1"; t := errorMessageType |};
         Text {| payload := ""; id := "1"; t := completeMessageType |}]
    ∧ invoked c' = invoked Demo.legacy
    ∧ active c' = active Demo.legacy
    ∧ goroutines c' = goroutines Demo.legacy.
Proof.
  apply (start_with_invalid_json Demo.legacy (Demo.startMsg "1" "not json"));
    vm_compute; reflexivity.
Defined.


(** Scenario 6 of the spec: InitTimeout = 50ms, no init. *)
Lemma init_timeout_impatient :
  exists c,
    Do Demo.X Demo.impatient graphqlwsSubprotocol Background 0 0 Never false = Refused c
    ∧ sent c = [Close websocket.CloseProtocolError "connection initialisation timeout"]
    ∧ closed c = true
    ∧ reading c = false.
Proof.
  apply (init_timeout (X := Demo.X) Demo.impatient graphqlwsSubprotocol Background
           0 0 Never false).
  - apply (bool_decide_unpack _). vm_compute. exact I.
  - discriminate.
  - by left.
Defined.

(** ** The invariants on concrete runs *)

(** Scenario 3 after a handshake with an init payload. *)
Lemma subscribe_context_stopped :
  let c := Scenes.welcomed in
  let c' := Scenes.play c Demo.stopped in
  (invoked c' = [(WithCancel Background 1,
                  {| OperationName := ""; Query := "subscription{tick}";
                     Variables := ∅ |})]
   ∧ initPayload c = Some ∅)
  ∧ (forall ctx1 params,
       (ctx1, params) ∈ invoked c' ->
       exists h, ctx1 = WithCancel (ctx c) h
         ∧ 0 < h
         ∧ GetInitPayload ctx1 = GetInitPayload (ctx c)
         ∧ getSubscriptionErrorStruct ctx1 = getSubscriptionErrorStruct (ctx c))
  ∧ (forall k g p,
       goroutines c' !! k = Some g ->
       initPayload c = Some p ->
       svcCtx g = WithCancel (ctx c) (subCancel g)
       ∧ GetInitPayload (subCtx g) = Some p).
Proof.
  intros c c'. split; [split; vm_compute; reflexivity|].
  apply (subscribe_context Demo.options graphqlwsSubprotocol Background 0 0
           (After 0 (Msg Scenes.hello)) false c Demo.stopped c');
    vm_compute; reflexivity.
Defined.

Lemma handshake_is_final_lifecycle :
  let c := Scenes.welcomed in
  let c' := Scenes.play c Demo.lifecycle in
  config c' = Demo.options ∧ me c' = me c ∧ subprotocol c' = graphqlwsSubprotocol
  ∧ ctx c' = ctx c ∧ initPayload c' = initPayload c.
Proof.
  intros c c'.
  apply (handshake_is_final Demo.options graphqlwsSubprotocol Background 0 0
           (After 0 (Msg Scenes.hello)) false c Demo.lifecycle c');
    vm_compute; reflexivity.
Defined.

(** The service deposits an error on the context it was given; the
    goroutine still ends with complete. *)
Lemma deposits_are_lost_deposited :
  let c' := Scenes.play Scenes.welcomed Scenes.deposited in
  sent c' = [ackFrame; keepAliveFrame; Demo.completeFrame "1"]
  ∧ getSubscriptionError (subCtx (Scenes.first c')) (heap c') = []
  ∧ terminalFrame (Scenes.first c') c'
    = Text {| payload := ""; id := subId (Scenes.first c');
              t := completeMessageType |}.
Proof.
  intros c'. split; [vm_compute; reflexivity|].
  apply (deposits_are_lost Demo.options graphqlwsSubprotocol Background 0 0
           (After 0 (Msg Scenes.hello)) false Scenes.welcomed
           Scenes.deposited c' 0 (Scenes.first c'));
    vm_compute; reflexivity.
Defined.

(** After connection_terminate the loop is left; the goroutine's last
    turns do not bring it back. *)
Lemma loop_exit_closes_cut :
  let c' := Scenes.play Scenes.welcomed Scenes.cut in
  let c'' := Scenes.play c' [Cancelled 0; Unregister 0] in
  closed c' = true
  ∧ ctxDone (cancelled c') (runCtx c') = true
  ∧ reading c'' = false.
Proof.
  intros c' c''.
  apply (loop_exit_closes Demo.options graphqlwsSubprotocol Background 0 0
           (After 0 (Msg Scenes.hello)) false Scenes.welcomed Scenes.cut c'
           [Cancelled 0; Unregister 0] c'');
    vm_compute; reflexivity.
Defined.

(** The frames of [Demo.terminated]: the complete of the goroutine, due
    after the close frame, is not among them. *)
Lemma close_frame_is_last_terminated :
  let c' := Scenes.play Scenes.welcomed Demo.terminated in
  sent c' = [ackFrame; keepAliveFrame]
            ++ Close websocket.CloseNormalClosure "terminated" :: []
  ∧ @nil frame = [] ∧ closed c' = true
  ∧ Forall (fun f => isText f = true) [ackFrame; keepAliveFrame].
Proof.
  intros c'.
  assert (Hs : sent c' = [ackFrame; keepAliveFrame]
                 ++ Close websocket.CloseNormalClosure "terminated" :: []).
  { vm_compute. reflexivity. }
  split; [exact Hs|].
  apply (close_frame_is_last Demo.options graphqlwsSubprotocol Background 0 0
           (After 0 (Msg Scenes.hello)) false Scenes.welcomed Demo.terminated c'
           [ackFrame; keepAliveFrame] websocket.CloseNormalClosure "terminated" []);
    [vm_compute; reflexivity..|exact Hs].
Defined.

(** connection_terminate while a subscription streams. *)
Lemma close_cancels_subscriptions_cut :
  let c' := Scenes.play Scenes.welcomed Scenes.cut in
  phaseOf 0 c' = Some Streaming
  ∧ ctxDone (cancelled c') (subCtx (Scenes.first c')) = true
  ∧ (subPhase (Scenes.first c') = Streaming -> is_Some (step Demo.X c' (Cancelled 0))).
Proof.
  intros c'. split; [vm_compute; reflexivity|].
  apply (close_cancels_subscriptions Demo.options graphqlwsSubprotocol Background
           0 0 (After 0 (Msg Scenes.hello)) false Scenes.welcomed Scenes.cut c' 0
           (Scenes.first c')).
  - vm_compute. reflexivity.
  - vm_compute. reflexivity.
  - apply (bool_decide_unpack _). vm_compute. exact I.
  - vm_compute. reflexivity.
  - vm_compute. reflexivity.
  - left. vm_compute. reflexivity.
Defined.

(** Scenario 3, from the stop message on. *)
Lemma stop_ends_subscription_streaming :
  let c' := Scenes.play Scenes.welcomed Scenes.streaming in
  let g := Scenes.first c' in
  exists c1 c2,
    step Demo.X c' (Inbound (Demo.stopMsg "1")) = Some c1
    ∧ sent c1 = sent c' ∧ active c1 = active c' ∧ goroutines c1 = goroutines c'
    ∧ cancelled c1 = {[subCancel g]} ∪ cancelled c'
    ∧ step Demo.X c1 (Cancelled 0) = Some c2
    ∧ sent c2 = sent c' ++ [terminalFrame g c']
    ∧ phaseOf 0 c2 = Some Completing
    ∧ active c2 = active c'.
Proof.
  intros c' g.
  apply (stop_ends_subscription Demo.options graphqlwsSubprotocol Background
           0 0 (After 0 (Msg Scenes.hello)) false Scenes.welcomed Scenes.streaming
           c' 0 g (Demo.stopMsg "1")).
  - vm_compute. reflexivity.
  - vm_compute. reflexivity.
  - apply (bool_decide_unpack _). vm_compute. exact I.
  - vm_compute. reflexivity.
  - vm_compute. reflexivity.
  - vm_compute. reflexivity.
  - vm_compute. reflexivity.
  - reflexivity.
  - vm_compute. reflexivity.
Defined.

(** A stop for the subscription of scenario 2, after its end. *)
Lemma stop_after_end_is_ignored_lifecycle :
  let c' := Scenes.play Scenes.welcomed Demo.lifecycle in
  phaseOf 0 c' = Some Exited
  ∧ step Demo.X c' (Inbound (Demo.stopMsg "1")) = Some c'.
Proof.
  intros c'. split; [vm_compute; reflexivity|].
  apply (stop_after_end_is_ignored Demo.options graphqlwsSubprotocol Background
           0 0 (After 0 (Msg Scenes.hello)) false Scenes.welcomed Demo.lifecycle
           c' (Demo.stopMsg "1")).
  - vm_compute. reflexivity.
  - vm_compute. reflexivity.
  - apply (bool_decide_unpack _). vm_compute. exact I.
  - vm_compute. reflexivity.
  - vm_compute. reflexivity.
  - reflexivity.
  - intros k g Hk _. right.
    assert (Hall : forallb (fun g => bool_decide (subPhase g = Exited))
                     (goroutines c') = true) by (vm_compute; reflexivity).
    apply (proj1 (bool_decide_eq_true _)).
    apply (proj1 (forallb_forall _ _) Hall g).
    apply list_elem_of_In. by eapply list_elem_of_lookup_2.
Defined.

(** A start that the service of [Demo] refuses. *)
Lemma subscribe_error_is_reported_failing :
  let c := Scenes.welcomed in
  exists c',
    step Demo.X c (Inbound (Demo.startMsg "7" Scenes.failing)) = Some c'
    ∧ sent c' = sent c ++
        [Text {| payload := jsonMarshalErrors Demo.X
                              [toGQLError Demo.X (errorString "no such subscription")];
                 id := "7"; t := errorMessageType |};
         Text {| payload := ""; id := "7"; t := completeMessageType |}]
    ∧ invoked c' = invoked c ++
        [(WithCancel (ctx c) (nextCancel c),
          {| OperationName := ""; Query := "fail"; Variables := ∅ |})]
    ∧ cancelled c' = {[nextCancel c]} ∪ cancelled c
    ∧ active c' = active c
    ∧ goroutines c' = goroutines c
    ∧ heap c' = heap c.
Proof.
  intros c.
  apply (subscribe_error_is_reported c (Demo.startMsg "7" Scenes.failing)
           {| OperationName := ""; Query := "fail"; Variables := ∅ |}
           (errorString "no such subscription"));
    vm_compute; reflexivity.
Defined.

(** A channel value, which [json.Marshal] refuses, on a streaming
    subscription. *)
Lemma encode_error_keeps_streaming_chan :
  let c := Scenes.play Scenes.welcomed Scenes.streaming in
  let g := Scenes.first c in
  exists c',
    step Demo.X c (Demo.recv 0 (Some Demo.Chan)) = Some c'
    ∧ sent c' = sent c ++
        [Text {| payload := jsonMarshalErrors Demo.X
                   [toGQLError Demo.X (errorString "json: unsupported type: chan int")];
                 id := subId g; t := errorMessageType |}]
    ∧ goroutines c' = goroutines c
    ∧ active c' = active c
    ∧ cancelled c' = cancelled c
    ∧ heap c' = heap c.
Proof.
  intros c g.
  apply (encode_error_keeps_streaming c 0 g Demo.Chan
           (errorString "json: unsupported type: chan int"));
    vm_compute; reflexivity.
Defined.

(** The owner of the request context cancels it. *)
Lemma cancelled_context_closes_hosted :
  let c := Scenes.play Scenes.hosted [EnvCancel 0] in
  exists c',
    step Demo.X c CloseOnCancel = Some c'
    ∧ sent c' = sent c
        ++ (if decide (closeReasonForContext (runCtx c) = "") then []
            else wrote {| payload := jsonMarshalError Demo.X
                            {| Message := Sprintf Demo.X
                                            (closeReasonForContext (runCtx c)) [] |};
                          id := ""; t := connectionErrorMessageType |} c)
        ++ [Close websocket.CloseNormalClosure "terminated"]
    ∧ closed c' = true
    ∧ (forall i h, active c !! i = Some h -> h ∈ cancelled c')
    ∧ active c' = active c
    ∧ goroutines c' = goroutines c
    ∧ step Demo.X c' CloseOnCancel = None.
Proof.
  intros c. apply (cancelled_context_closes c); vm_compute; reflexivity.
Defined.

(** A legacy connection with a keep-alive interval of one second. *)
Lemma timers_follow_dialect_ticking :
  let c' := Scenes.play Scenes.ticking [KeepAliveTick] in
  sent c' = [ackFrame; keepAliveFrame; keepAliveFrame]
  ∧ (is_Some (step Demo.X c' KeepAliveTick) ->
       (graphqlwsSubprotocol = "" ∨ graphqlwsSubprotocol = graphqlwsSubprotocol)
       ∧ (0 < KeepAlivePingInterval Scenes.patient)%Z)
  ∧ (is_Some (step Demo.X c' PingTick) ->
       graphqlwsSubprotocol = graphqltransportwsSubprotocol
       ∧ (0 < PingPongInterval Scenes.patient)%Z)
  ∧ ~ (is_Some (step Demo.X c' KeepAliveTick) ∧ is_Some (step Demo.X c' PingTick)).
Proof.
  intros c'. split; [vm_compute; reflexivity|].
  apply (timers_follow_dialect Scenes.patient graphqlwsSubprotocol Background 0 0
           (After 0 (Msg Scenes.hello)) false Scenes.ticking [KeepAliveTick] c');
    vm_compute; reflexivity.
Defined.

(** The keep-alive timer after connection_terminate. *)
Lemma timers_stop_after_exit_ticked :
  let c' := Scenes.play Scenes.ticking Scenes.ticked in
  keepAliveTicker c' = true
  ∧ (keepAliveTicker c' = true ->
       exists c1, step Demo.X c' KeepAliveStop = Some c1 ∧ sent c1 = sent c'
         ∧ forall es1 c2, exec Demo.X c1 es1 = Some c2 ->
                          step Demo.X c2 KeepAliveTick = None)
  ∧ (pingPongTicker c' = true ->
       exists c1, step Demo.X c' PingStop = Some c1 ∧ sent c1 = sent c'
         ∧ forall es1 c2, exec Demo.X c1 es1 = Some c2 ->
                          step Demo.X c2 PingTick = None).
Proof.
  intros c'. split; [vm_compute; reflexivity|].
  apply (timers_stop_after_exit Scenes.patient graphqlwsSubprotocol Background 0 0
           (After 0 (Msg Scenes.hello)) false Scenes.ticking Scenes.ticked c');
    vm_compute; reflexivity.
Defined.


(** KeepAlivePingInterval = -1ns on the legacy dialect. *)
Lemma negative_interval_panics_broken :
  Do Demo.X Scenes.broken graphqlwsSubprotocol Background 0 0
    (After 0 (Msg Scenes.hello)) false = Panicked
  ∧ (Do Demo.X Scenes.broken graphqlwsSubprotocol Background 0 0
       (After 0 (Msg Scenes.hello)) false = Panicked
     <-> ((graphqlwsSubprotocol = "" ∨ graphqlwsSubprotocol = graphqlwsSubprotocol)
          ∧ (KeepAlivePingInterval Scenes.broken < 0)%Z)
         ∨ (graphqlwsSubprotocol = graphqltransportwsSubprotocol
            ∧ (PingPongInterval Scenes.broken < 0)%Z)).
Proof.
  assert (H : Do Demo.X Scenes.broken graphqlwsSubprotocol Background 0 0
                (After 0 (Msg Scenes.hello)) false = Panicked).
  { vm_compute. reflexivity. }
  split; [exact H|].
  apply (negative_interval_panics (X := Demo.X) Scenes.broken graphqlwsSubprotocol
           Background 0 0 (After 0 (Msg Scenes.hello)) false).
  left. exact H.
Defined.

(** A start before any connection_init. *)
Lemma refused_handshake_start :
  let c := Scenes.play
             (close Demo.X websocket.CloseProtocolError "unexpected message"
                (sendConnectionError Demo.X "unexpected message %s"
                   [ArgKind startMessageType]
                   (newConnection Demo.X Demo.options graphqlwsSubprotocol
                      graphqlwsMessageExchanger Background 0 0))) [] in
  kindOf <$> sent c = [Some connectionErrorMessageType; None]
  ∧ refusal (After 0 (Msg (Demo.startMsg "1" Demo.tick))) c
  ∧ Forall (fun f => kindOf f ≠ Some connectionAckMessageType) (sent c)
  ∧ reading c = false
  ∧ goroutines c = []
  ∧ invoked c = []
  ∧ active c = ∅.
Proof.
  intros c. split; [vm_compute; reflexivity|].
  apply (refused_handshake Demo.options graphqlwsSubprotocol Background 0 0
           (After 0 (Msg (Demo.startMsg "1" Demo.tick))) false c).
  vm_compute. reflexivity.
Defined.

End transport.
